(** * Miami Herald article scraper: a shallow embedding of
      [miami_herald_scraper.py] and the properties of its pipeline.

    The pipeline is Discovery -> Filter -> Resolution -> Dedup -> Export.
    Python strings are modelled as lists of Unicode code points, dictionaries
    that are iterated as insertion-ordered association lists, the [seen]
    dictionary of the dedup pass as a finite map, and everything the script
    obtains from outside the repository (the network, the feed parser, the
    redirect decoder, [datetime.strptime], [strftime], [str.lower], the clock)
    as the fields of a [Runtime]. *)

From Stdlib Require Import List NArith ZArith Bool String Ascii Lia.
From Stdlib Require Import Sorted Permutation.
From Equations Require Import Equations.
From Equations.Prop Require Import Logic.
From stdpp Require Import gmap.
Import ListNotations.

Local Open Scope N_scope.

(* ===================================================================== *)
(** * Part I: the model                                                   *)
(* ===================================================================== *)

(** ** Python strings *)

(** A [str] is a sequence of code points. *)
Abbreviation pystr := (list N).

(** An ASCII literal as a [str]. *)
Definition py (s : string) : pystr :=
  List.map N_of_ascii (list_ascii_of_string s).

(** A one-character literal. *)
Definition ch (a : ascii) : N := N_of_ascii a.

(** [if s] / [if not s]: the empty string is the only falsy string. *)
Definition truthy (s : pystr) : bool :=
  match s with [] => false | _ :: _ => true end.

(** [s.startswith(p)]. *)
Fixpoint startswith (p s : pystr) : bool :=
  match p, s with
  | [], _ => true
  | a :: p', b :: s' => (a =? b) && startswith p' s'
  | _ :: _, [] => false
  end.

(** What is left of [s] after the literal [p], when [s] starts with [p]:
    a regular expression matching a literal at the current position. *)
Fixpoint strip_prefix (p s : pystr) : option pystr :=
  match p, s with
  | [], _ => Some s
  | a :: p', b :: s' => if a =? b then strip_prefix p' s' else None
  | _ :: _, [] => None
  end.

(** [needle in s]: substring test. *)
Fixpoint contains (needle s : pystr) : bool :=
  startswith needle s ||
  match s with
  | [] => false
  | _ :: s' => contains needle s'
  end.

(** [s.split(sep)[0]] for a one-character separator: the text before the
    first [sep], the whole string when there is none. *)
Fixpoint split_head (sep : N) (s : pystr) : pystr :=
  match s with
  | [] => []
  | c :: s' => if c =? sep then [] else c :: split_head sep s'
  end.

(** [s.rstrip(chars)], the characters to strip given as a predicate. *)
Fixpoint rstrip_by (strip : N -> bool) (s : pystr) : pystr :=
  match s with
  | [] => []
  | c :: s' =>
      match rstrip_by strip s' with
      | [] => if strip c then [] else [c]
      | r => c :: r
      end
  end.

(** [s.lstrip(chars)]. *)
Fixpoint lstrip_by (strip : N -> bool) (s : pystr) : pystr :=
  match s with
  | [] => []
  | c :: s' => if strip c then lstrip_by strip s' else s
  end.

(** [s.replace(a, b)] for one-character [a] and [b]. *)
Definition replace_char (a b : N) (s : pystr) : pystr :=
  List.map (fun c => if c =? a then b else c) s.

(** Unicode white space, as [str.isspace], [str.strip()] and the regular
    expression class [\s] on [str] patterns see it. *)
Definition is_space (c : N) : bool :=
  ((9 <=? c) && (c <=? 13)) || ((28 <=? c) && (c <=? 32))
  || (c =? 133) || (c =? 160) || (c =? 5760)
  || ((8192 <=? c) && (c <=? 8202))
  || (c =? 8232) || (c =? 8233) || (c =? 8239) || (c =? 8287)
  || (c =? 12288).

(** [s.strip()]. *)
Definition str_strip (s : pystr) : pystr :=
  lstrip_by is_space (rstrip_by is_space s).

(** ** URL normalizer *)

Definition s_http : pystr := Eval cbv in py "http".
Definition s_s : pystr := Eval cbv in py "s".
Definition s_amp_tail : pystr := Eval cbv in py "://amp.".
Definition s_https_www : pystr := Eval cbv in py "https://www.".
Definition s_http_scheme : pystr := Eval cbv in py "http://".
Definition s_https_scheme : pystr := Eval cbv in py "https://".
Definition c_slash : N := Eval cbv in ch "/".
Definition c_question : N := Eval cbv in ch "?".
Definition c_hash : N := Eval cbv in ch "#".

(** The pattern [https?://amp\.] tried at the current position: the rest of
    the string after the match.  [s?] is greedy: the engine first tries to
    consume an [s], and backtracks to the empty match when what follows is
    not [://amp.]. *)
Definition match_amp (s : pystr) : option pystr :=
  match strip_prefix s_http s with
  | None => None
  | Some r1 =>
      match
        match strip_prefix s_s r1 with
        | Some r2 => strip_prefix s_amp_tail r2
        | None => None
        end
      with
      | Some r => Some r
      | None => strip_prefix s_amp_tail r1
      end
  end.

Lemma strip_prefix_length (p s r : pystr) :
  strip_prefix p s = Some r -> (length r <= length s)%nat.
Proof.
  revert s. induction p as [|a p IH]; intros [|b s] H; simpl in *;
    try congruence; try (inversion H; subst; simpl; lia).
  destruct (a =? b); [apply IH in H; lia | congruence].
Qed.

Lemma match_amp_length (s r : pystr) :
  match_amp s = Some r -> (length r < length s)%nat.
Proof.
  unfold match_amp. intros H.
  destruct (strip_prefix s_http s) as [r1|] eqn:E1; [|congruence].
  assert (L1 : (length r1 < length s)%nat).
  { destruct s as [|c0 [|c1 [|c2 [|c3 s]]]]; simpl in E1; try congruence;
      repeat match type of E1 with
             | (if ?b then _ else _) = _ => destruct b; [|congruence]
             end; inversion E1; subst; simpl; lia. }
  destruct (strip_prefix s_s r1) as [r2|] eqn:E2.
  - destruct (strip_prefix s_amp_tail r2) as [r3|] eqn:E3.
    + inversion H; subst. apply strip_prefix_length in E2, E3. lia.
    + apply strip_prefix_length in H. lia.
  - apply strip_prefix_length in H. lia.
Qed.

(** [re.sub(r"https?://amp\.", "https://www.", s)]: scan from the left,
    replace each match and resume after it; a character where the pattern
    does not match is copied. *)
Equations? re_sub_amp (s : pystr) : pystr by wf (length s) lt :=
  re_sub_amp [] := [];
  re_sub_amp (c :: s') with inspect (match_amp (c :: s')) => {
    | exist _ (Some r) E := s_https_www ++ re_sub_amp r ;
    | exist _ None _ := c :: re_sub_amp s' }.
Proof.
  - exact (match_amp_length _ _ E).
  - simpl. lia.
Qed.

(** Whether the pattern [https?://amp\.] matches somewhere in [s]. *)
Fixpoint has_amp (s : pystr) : bool :=
  match s with
  | [] => false
  | _ :: s' =>
      match match_amp s with
      | Some _ => true
      | None => has_amp s'
      end
  end.

Definition s_amp1 : pystr := Eval cbv in py "http://amp.".
Definition s_amp2 : pystr := Eval cbv in py "https://amp.".
Definition s_amp_dot : pystr := Eval cbv in py "amp.".

(** [normalize_url(url)]. *)
Definition normalize_url (url : pystr) : pystr :=
  if negb (truthy url) then []
  else
    let url := re_sub_amp url in
    let url :=
      rstrip_by (N.eqb c_slash)
        (split_head c_hash (split_head c_question url)) in
    if startswith s_http_scheme url
    then s_https_scheme ++ skipn 7 url
    else url.

(** The scheme upgrade of [normalize_url]. *)
Definition upgrade_scheme (url : pystr) : pystr :=
  if startswith s_http_scheme url
  then s_https_scheme ++ skipn 7 url
  else url.

(** What [normalize_url] returns is a fixed point of each of its steps. *)
Record normal (u : pystr) : Prop := {
  normal_amp : has_amp u = false;
  normal_question : ~ In c_question u;
  normal_hash : ~ In c_hash u;
  normal_slash : rstrip_by (N.eqb c_slash) u = u;
  normal_scheme : startswith s_http_scheme u = false
}.


(** ** Exceptions *)

(** What a call does: it returns a value or raises.  The script catches
    [ValueError] around [strptime] and [Exception] around the network call
    and the redirect decoder; nothing else in it raises. *)
Inductive outcome (A : Type) : Type :=
| Returned (a : A)
| Raised.
Arguments Returned {A} a.
Arguments Raised {A}.

(** ** Dates *)

(** A naive [datetime]. *)
Record datetime : Type := mk_datetime {
  year : N;
  month : N;
  day : N;
  hour : N;
  minute : N;
  second : N;
  microsecond : N
}.

(** [datetime.min]. *)
Definition datetime_min : datetime := mk_datetime 1 1 1 0 0 0 0.

Definition dt_fields (d : datetime) : list N :=
  [year d; month d; day d; hour d; minute d; second d; microsecond d].

(** Python compares naive datetimes as the tuples of their fields. *)
Fixpoint lex_compare (a b : list N) : comparison :=
  match a, b with
  | [], [] => Eq
  | [], _ :: _ => Lt
  | _ :: _, [] => Gt
  | x :: a', y :: b' =>
      match x ?= y with
      | Eq => lex_compare a' b'
      | c => c
      end
  end.

Definition dt_compare (a b : datetime) : comparison :=
  lex_compare (dt_fields a) (dt_fields b).

(** [a >= b]. *)
Definition dt_ge (a b : datetime) : bool :=
  match dt_compare a b with Lt => false | _ => true end.

(** [a < b]. *)
Definition dt_lt (a b : datetime) : bool :=
  match dt_compare a b with Lt => true | _ => false end.

(** [a == b]. *)
Definition dt_eqb (a b : datetime) : bool :=
  match dt_compare a b with Eq => true | _ => false end.

(** [a <= b], as a proposition. *)
Definition dt_le (a b : datetime) : Prop := dt_compare a b <> Gt.

(** What [datetime.strptime] returns: the fields and, when the format had a
    [%z] that matched, a time zone (its offset in seconds). *)
Record parsed_datetime : Type := {
  naive_fields : datetime;
  tzinfo : option Z
}.

(** [dt.replace(tzinfo=None)]. *)
Definition replace_tzinfo_None (dt : parsed_datetime) : datetime :=
  naive_fields dt.

(** ** The records of the pipeline *)

(** The dictionary [fetch_gnews_rss] builds for one feed entry. *)
Record article : Type := mk_article {
  title : pystr;
  publish_date : pystr;
  google_url : pystr;
  url : pystr;
  author : pystr;
  summary : pystr
}.

(** [article["url"] = u]. *)
Definition set_url (a : article) (u : pystr) : article :=
  {| title := title a; publish_date := publish_date a;
     google_url := google_url a; url := u;
     author := author a; summary := summary a |}.

(** A feed entry as [feedparser] gives it: each key may be missing;
    [entry_source] is [None] when the entry has no [source] attribute (or one
    that is not a dictionary), and [Some None] when the source has no
    [title]. *)
Record feed_entry : Type := {
  entry_title : option pystr;
  entry_published : option pystr;
  entry_link : option pystr;
  entry_source : option (option pystr)
}.

(** What [requests.get] returns. *)
Record response : Type := {
  status_code : Z;
  text : pystr
}.

(** The dictionary [new_decoderv1] returns: [status] and [decoded_url] may
    each be missing. *)
Record decoded : Type := {
  status : option bool;
  decoded_url : option pystr
}.

(** A row handed to [csv.DictWriter.writerow]. *)
Record csv_row : Type := {
  row_title : pystr;
  row_url : pystr;
  row_publish_date : pystr;
  row_author : pystr;
  row_summary : pystr
}.

(** The file [write_csv] leaves behind: its name, the header and the rows in
    the order written. *)
Record csv_file : Type := {
  file_name : pystr;
  header : list pystr;
  rows : list csv_row
}.

(** ** What the script gets from outside the repository *)

(** [strptime] is [datetime.strptime(date_string, format)], with [Raised]
    for [ValueError]; [strftime] is [dt.strftime(format)]; [re_digit] is the
    class [\d] of the regular expressions; [str_lower] is [s.lower()];
    [new_decoderv1] is the decoder of [googlenewsdecoder]; [requests_get] is
    [requests.get(url, headers=HEADERS, timeout=30)]; [feedparser_parse]
    gives the entries of [feedparser.parse(text)]; [CUTOFF_DATE] is
    [datetime.now() - timedelta(days=DAYS_BACK)], computed once when the
    module is loaded. *)
Class Runtime : Type := {
  strptime : pystr -> pystr -> outcome parsed_datetime;
  strftime : datetime -> pystr -> pystr;
  re_digit : N -> bool;
  str_lower : pystr -> pystr;
  new_decoderv1 : pystr -> outcome decoded;
  requests_get : pystr -> outcome response;
  feedparser_parse : pystr -> list feed_entry;
  CUTOFF_DATE : datetime
}.

(** ** Configuration *)

Definition OUTPUT_FILE : pystr := py "miami_herald_articles.csv".

Definition DAYS_BACK : N := 30.

Definition RSS_QUERIES : list pystr :=
  List.map py
    ["site:miamiherald.com"; "site:miamiherald.com news";
     "site:miamiherald.com local"; "site:miamiherald.com crime";
     "site:miamiherald.com politics"; "site:miamiherald.com business";
     "site:miamiherald.com sports"; "site:miamiherald.com miami";
     "site:miamiherald.com florida"; "site:miamiherald.com immigration";
     "site:miamiherald.com entertainment"; "site:miamiherald.com opinion";
     "site:miamiherald.com real estate"; "site:miamiherald.com education";
     "site:miamiherald.com environment"; "site:miamiherald.com health";
     "site:miamiherald.com dolphins"; "site:miamiherald.com heat";
     "site:miamiherald.com marlins"; "site:miamiherald.com college";
     "site:miamiherald.com broward"; "site:miamiherald.com miami-dade";
     "site:miamiherald.com keys"; "site:miamiherald.com trump";
     "site:miamiherald.com housing"; "site:miamiherald.com community";
     "site:miamiherald.com cuba"; "site:miamiherald.com haiti";
     "site:miamiherald.com technology"]%string.

(** The publisher's display name and the marker of its domain. *)
Definition s_miami_herald : pystr := Eval cbv in py "Miami Herald".
Definition s_domain : pystr := Eval cbv in py "miamiherald.com".

(** The name without its last letter, [d] (code point 100). *)
Definition s_miami_heral : pystr := Eval cbv in removelast s_miami_herald.

(** ** The title pattern *)

(** The class of the three dashes: hyphen, en dash, em dash. *)
Definition is_dash (c : N) : bool :=
  (c =? 45) || (c =? 8211) || (c =? 8212).

(** [\s*] followed by [k]: greedy, so the engine consumes a white space
    character first and gives it back only when the rest fails. *)
Fixpoint re_spaces_then {A : Type} (k : pystr -> option A) (s : pystr)
  : option A :=
  match s with
  | [] => k []
  | c :: s' =>
      if is_space c
      then match re_spaces_then k s' with
           | Some r => Some r
           | None => k s
           end
      else k s
  end.

(** [$]: the end of the string, or the position before a newline that ends
    the string. *)
Definition re_dollar (s : pystr) : option pystr :=
  match s with
  | [] => Some []
  | [c] => if c =? 10 then Some [c] else None
  | _ => None
  end.

(** The title pattern, white space, a dash, white space, the publisher's
    name, white space and [$], tried at the current position: what is left
    of the string after the match. *)
Definition match_suffix (s : pystr) : option pystr :=
  re_spaces_then
    (fun s1 =>
       match s1 with
       | [] => None
       | d :: s2 =>
           if is_dash d
           then re_spaces_then
                  (fun s3 =>
                     match strip_prefix s_miami_herald s3 with
                     | Some s4 => re_spaces_then re_dollar s4
                     | None => None
                     end) s2
           else None
       end) s.

Lemma re_spaces_then_length {A : Type} (k : pystr -> option A)
    (size : A -> nat) (n : nat) :
  (forall s r, k s = Some r -> (size r + n <= length s)%nat) ->
  forall s r, re_spaces_then k s = Some r -> (size r + n <= length s)%nat.
Proof.
  intros Hk. induction s as [|c s IH]; intros r H; simpl in H.
  - apply Hk. exact H.
  - destruct (is_space c).
    + destruct (re_spaces_then k s) as [r'|].
      * inversion H; subst. specialize (IH r eq_refl). simpl. lia.
      * apply Hk. exact H.
    + apply Hk. exact H.
Qed.

Lemma re_dollar_length (s r : pystr) :
  re_dollar s = Some r -> (length r + 0 <= length s)%nat.
Proof.
  destruct s as [|c [|d s]]; simpl; intros H; try discriminate.
  - inversion H. simpl. lia.
  - destruct (c =? 10); inversion H. simpl. lia.
Qed.

Lemma match_suffix_length (s r : pystr) :
  match_suffix s = Some r -> (length r < length s)%nat.
Proof.
  intros H.
  enough (length r + 1 <= length s)%nat by lia.
  revert s r H. apply re_spaces_then_length.
  intros [|d s2] r H; [discriminate|].
  destruct (is_dash d); [|discriminate].
  enough (length r + 0 <= length s2)%nat by (simpl; lia).
  revert s2 r H. apply re_spaces_then_length.
  intros s3 r H.
  destruct (strip_prefix s_miami_herald s3) as [s4|] eqn:E; [|discriminate].
  apply strip_prefix_length in E.
  enough (length r + 0 <= length s4)%nat by lia.
  clear E. revert s4 r H. apply re_spaces_then_length. apply re_dollar_length.
Qed.

(** [re.sub] with the title pattern and the empty replacement: a match is
    cut out and the scan resumes after it. *)
Equations? re_sub_suffix (s : pystr) : pystr by wf (length s) lt :=
  re_sub_suffix [] := [];
  re_sub_suffix (c :: s') with inspect (match_suffix (c :: s')) => {
    | exist _ (Some r) E := re_sub_suffix r ;
    | exist _ None _ := c :: re_sub_suffix s' }.
Proof.
  - exact (match_suffix_length _ _ E).
  - simpl. lia.
Qed.

(** The title stored for a headline. *)
Definition stored_title (headline : pystr) : pystr :=
  str_strip (re_sub_suffix headline).

(** A string of white space only. *)
Definition blank (s : pystr) : Prop := Forall (fun c => is_space c = true) s.

(** The strings the title pattern matches from their first character to
    their end: white space, a dash, white space, the publisher's name and
    white space, each run of white space possibly empty. *)
Definition publisher_suffix (t : pystr) : Prop :=
  exists (ws1 : pystr) (d : N) (ws2 ws3 : pystr),
    t = ws1 ++ d :: ws2 ++ s_miami_herald ++ ws3
    /\ blank ws1 /\ is_dash d = true /\ blank ws2 /\ blank ws3.

(** ** Insertion-ordered dictionaries *)

(** [all_articles]: a Python [dict] keeps its keys in insertion order, and
    [values()] lists them in that order. *)
Definition odict (V : Type) : Type := list (pystr * V).

(** [key in d]. *)
Definition od_contains {V : Type} (k : pystr) (d : odict V) : bool :=
  existsb (fun kv => bool_decide (fst kv = k)) d.

(** [d[key] = v]: a new key goes last, a present key keeps its place. *)
Fixpoint od_set {V : Type} (k : pystr) (v : V) (d : odict V) : odict V :=
  match d with
  | [] => [(k, v)]
  | (k', v') :: d' =>
      if bool_decide (k' = k) then (k', v) :: d' else (k', v') :: od_set k v d'
  end.

(** [list(d.values())]. *)
Definition od_values {V : Type} (d : odict V) : list V := List.map snd d.

(** ** First occurrences *)

(** The elements of [l] whose key is not in [seen] and not the key of an
    earlier element of [l]. *)
Fixpoint firsts {A : Type} (key : A -> pystr) (seen : list pystr)
    (l : list A) : list A :=
  match l with
  | [] => []
  | a :: l' =>
      if bool_decide (key a ∈ seen)
      then firsts key seen l'
      else a :: firsts key (key a :: seen) l'
  end.

(** The first element of [l] with key [k]. *)
Definition first_with {A : Type} (key : A -> pystr) (k : pystr) (l : list A)
  : option A :=
  List.find (fun a => bool_decide (key a = k)) l.

(** ** The sort of the exporter *)

(** [sorted(l, key=key, reverse=True)]: Python's sort is stable, also with
    [reverse=True]: elements with equal keys keep their order.  The model
    inserts each element, from the last to the first, in front of the first
    element whose key is not greater. *)
Fixpoint insert_reverse {A : Type} (key : A -> datetime) (x : A) (l : list A)
  : list A :=
  match l with
  | [] => [x]
  | y :: l' =>
      if dt_lt (key x) (key y) then y :: insert_reverse key x l' else x :: l
  end.

Definition sorted_reverse {A : Type} (key : A -> datetime) (l : list A)
  : list A :=
  fold_right (insert_reverse key) [] l.

(** [a] may stand before [b] in a list sorted by descending key. *)
Definition descending {A : Type} (key : A -> datetime) (a b : A) : Prop :=
  dt_le (key b) (key a).

(** The elements whose key is [k]. *)
Definition same_key {A : Type} (key : A -> datetime) (k : datetime) (a : A)
  : bool :=
  dt_eqb (key a) k.

(** ** The pipeline *)

Section Pipeline.

Context {rt : Runtime}.

(** *** URL resolution *)

(** [x.get(key)] as a condition. *)
Definition get_truthy (s : option pystr) : bool :=
  match s with Some v => truthy v | None => false end.

(** [resolve_google_news_url(google_url)]. *)
Definition resolve_google_news_url (google_url : pystr) : outcome pystr :=
  match new_decoderv1 google_url with
  | Returned result =>
      if default false (status result) && get_truthy (decoded_url result)
      then Returned (default [] (decoded_url result))
      else Returned google_url
  | Raised => Returned google_url
  end.

(** The URL the decoder gives when decoding succeeds: the result has a
    truthy [status] and a non-empty [decoded_url].  [None] covers the
    decode failure and the exception. *)
Definition decode_success (o : outcome decoded) : option pystr :=
  match o with
  | Returned result =>
      if default false (status result) && get_truthy (decoded_url result)
      then decoded_url result
      else None
  | Raised => None
  end.

(** *** Date parsing *)

Definition date_formats : list pystr :=
  List.map py
    ["%a, %d %b %Y %H:%M:%S %Z"; "%a, %d %b %Y %H:%M:%S %z";
     "%Y-%m-%dT%H:%M:%S%z"; "%Y-%m-%dT%H:%M:%S"; "%Y-%m-%d";
     "%b %d, %Y"; "%B %d, %Y"]%string.

(** The loop over the formats: the first that parses wins. *)
Fixpoint try_formats (date_str : pystr) (formats : list pystr)
  : option datetime :=
  match formats with
  | [] => None
  | fmt :: formats' =>
      match strptime date_str fmt with
      | Returned dt => Some (replace_tzinfo_None dt)
      | Raised => try_formats date_str formats'
      end
  end.

(** A pattern of digits and literal characters matched at the current
    position: the text matched and the rest. *)
Fixpoint match_shape (shape : list (option N)) (s : pystr)
  : option (pystr * pystr) :=
  match shape, s with
  | [], _ => Some ([], s)
  | _ :: _, [] => None
  | item :: shape', c :: s' =>
      if match item with Some lit => c =? lit | None => re_digit c end
      then match match_shape shape' s' with
           | Some (m, r) => Some (c :: m, r)
           | None => None
           end
      else None
  end.

Definition c_dash : N := Eval cbv in ch "-".
Definition c_colon : N := Eval cbv in ch ":".
Definition c_T : N := Eval cbv in ch "T".

(** Four digits, a dash, two digits, a dash, two digits; and two digits, a
    colon, two digits, a colon, two digits. *)
Definition shape_date : list (option N) :=
  [None; None; None; None; Some c_dash; None; None; Some c_dash; None; None].
Definition shape_time : list (option N) :=
  [None; None; Some c_colon; None; None; Some c_colon; None; None].

(** [re.match] of the date shape, a [T] and the time shape: the two
    groups. *)
Definition match_iso (s : pystr) : option (pystr * pystr) :=
  match match_shape shape_date s with
  | Some (g1, r1) =>
      match r1 with
      | c :: r2 =>
          if c =? c_T
          then match match_shape shape_time r2 with
               | Some (g2, _) => Some (g1, g2)
               | None => None
               end
          else None
      | [] => None
      end
  | None => None
  end.

(** [parse_date(date_str)]; [None] is Python's [None].  The last call of
    [strptime] has a format without a zone, so what it returns is naive. *)
Definition parse_date (date_str : pystr) : option datetime :=
  if negb (truthy date_str) then None
  else
    let date_str := str_strip date_str in
    match try_formats date_str date_formats with
    | Some dt => Some dt
    | None =>
        match match_iso date_str with
        | Some (g1, g2) =>
            match strptime (g1 ++ py " " ++ g2) (py "%Y-%m-%d %H:%M:%S") with
            | Returned dt => Some (naive_fields dt)
            | Raised => None
            end
        | None => None
        end
    end.

(** *** Feed query client *)

(** The URL of the search for a query. *)
Definition search_url (query : pystr) : pystr :=
  let encoded := replace_char (ch " ") (ch "+") query in
  py "https://news.google.com/rss/search"
  ++ py "?q=" ++ encoded ++ py "&hl=en-US&gl=US&ceid=US:en".

(** [source]: the title of the entry's source, or the empty string. *)
Definition entry_source_name (e : feed_entry) : pystr :=
  match entry_source e with
  | Some src => default [] src
  | None => []
  end.

(** The dictionary appended for an entry. *)
Definition article_of_entry (e : feed_entry) : article :=
  {| title := stored_title (default [] (entry_title e));
     publish_date := default [] (entry_published e);
     google_url := default [] (entry_link e);
     url := [];
     author := [];
     summary := [] |}.

(** The entries that do not reach [continue]. *)
Definition entry_kept (e : feed_entry) : bool :=
  let source := entry_source_name e in
  negb (truthy source && negb (contains s_miami_herald source)).

(** One round of the loop over [feed.entries]. *)
Definition entry_step (articles : list article) (e : feed_entry)
  : list article :=
  let source := entry_source_name e in
  if truthy source && negb (contains s_miami_herald source)
  then articles
  else articles ++ [article_of_entry e].

(** The loop over [feed.entries]. *)
Definition feed_articles (entries : list feed_entry) : list article :=
  fold_left entry_step entries [].

(** [fetch_gnews_rss(query)]. *)
Definition fetch_gnews_rss (query : pystr) : list article :=
  match requests_get (search_url query) with
  | Raised => []
  | Returned resp =>
      if negb (status_code resp =? 200)%Z then []
      else feed_articles (feedparser_parse (text resp))
  end.

(** *** Discovery *)

(** [article["title"].lower().strip()]. *)
Definition title_key (a : article) : pystr :=
  str_strip (str_lower (title a)).

(** The articles that have a key. *)
Definition keyed (a : article) : bool := truthy (title_key a).

(** One round of the inner loop of [collect_all_articles]. *)
Definition merge_article (all_articles : odict article) (a : article)
  : odict article :=
  let key := title_key a in
  if truthy key && negb (od_contains key all_articles)
  then od_set key a all_articles
  else all_articles.

(** One round of the outer loop: a query. *)
Definition merge_query (all_articles : odict article) (query : pystr)
  : odict article :=
  fold_left merge_article (fetch_gnews_rss query) all_articles.

(** The loop over the queries, for any list of them. *)
Definition collect_articles (queries : list pystr) : list article :=
  od_values (fold_left merge_query queries []).

(** Everything the queries return, in order. *)
Definition fetched (queries : list pystr) : list article :=
  flat_map fetch_gnews_rss queries.

(** [collect_all_articles()]. *)
Definition collect_all_articles : list article :=
  collect_articles RSS_QUERIES.

(** *** Resolution *)

(** One round of the loop of [resolve_urls]. *)
Definition resolve_article (a : article) : outcome article :=
  match resolve_google_news_url (google_url a) with
  | Returned real_url =>
      if contains s_domain real_url
      then Returned (set_url a (normalize_url real_url))
      else Returned (set_url a (google_url a))
  | Raised => Raised
  end.

(** The url stored for a resolver result. *)
Definition stored_url (a : article) (real_url : pystr) : pystr :=
  if contains s_domain real_url then normalize_url real_url else google_url a.

(** [resolve_urls(articles)]. *)
Fixpoint resolve_urls (articles : list article) : outcome (list article) :=
  match articles with
  | [] => Returned []
  | a :: articles' =>
      match resolve_article a with
      | Returned a' =>
          match resolve_urls articles' with
          | Returned rest => Returned (a' :: rest)
          | Raised => Raised
          end
      | Raised => Raised
      end
  end.

(** *** Filter *)

(** The condition of [filter_by_date]: [dt is None or dt >= CUTOFF_DATE]. *)
Definition recent (a : article) : bool :=
  match parse_date (publish_date a) with
  | None => true
  | Some dt => dt_ge dt CUTOFF_DATE
  end.

(** [filter_by_date(articles)]. *)
Definition filter_by_date (articles : list article) : list article :=
  fold_left (fun filtered a => if recent a then filtered ++ [a] else filtered)
    articles [].

(** *** Dedup *)

(** The key of the dedup pass. *)
Definition url_key (a : article) : pystr := normalize_url (url a).

(** One round of the loop of [deduplicate_by_url]: the state is [seen] and
    [unique]. *)
Definition dedup_step (st : gmap pystr bool * list article) (a : article)
  : gmap pystr bool * list article :=
  let url := normalize_url (url a) in
  match fst st !! url with
  | None => (<[url := true]> (fst st), snd st ++ [a])
  | Some _ => st
  end.

(** [deduplicate_by_url(articles)]. *)
Definition deduplicate_by_url (articles : list article) : list article :=
  snd (fold_left dedup_step articles (∅, [])).

(** *** Export *)

Definition fieldnames : list pystr :=
  List.map py ["title"; "url"; "publish_date"; "author"; "summary"]%string.

(** The key of the sort: the parsed date, or [datetime.min] without one. *)
Definition sort_key (a : article) : datetime :=
  match parse_date (publish_date a) with
  | Some dt => dt
  | None => datetime_min
  end.

(** The articles whose date parses to [d]; [None] is the unknown date. *)
Definition parses_to (d : option datetime) (a : article) : bool :=
  match parse_date (publish_date a), d with
  | Some x, Some y => dt_eqb x y
  | None, None => true
  | _, _ => false
  end.

(** The row written for an article. *)
Definition row_of_article (a : article) : csv_row :=
  {| row_title := title a;
     row_url := url a;
     row_publish_date :=
       match parse_date (publish_date a) with
       | Some dt => strftime dt (py "%Y-%m-%d")
       | None => []
       end;
     row_author := author a;
     row_summary := firstn 500 (summary a) |}.

(** [write_csv(articles, filename)]: the file written. *)
Definition write_csv (articles : list article) (filename : pystr) : csv_file :=
  let sorted_articles := sorted_reverse sort_key articles in
  {| file_name := filename;
     header := fieldnames;
     rows := List.map row_of_article sorted_articles |}.

(** *** Main *)

(** [main()], without its log lines. *)
Definition main : outcome csv_file :=
  let articles := collect_all_articles in
  let articles := filter_by_date articles in
  match resolve_urls articles with
  | Returned articles =>
      let articles := deduplicate_by_url articles in
      Returned (write_csv articles OUTPUT_FILE)
  | Raised => Raised
  end.

End Pipeline.

(** ** A reference runtime *)

(** A runtime to run the pipeline on: the web, the feeds and the decoder are
    tables, and the library functions are implemented for the inputs the
    examples use. *)
Module Reference.

Definition is_ascii_digit (c : N) : bool := (48 <=? c) && (c <=? 57).

Definition digit_value (c : N) : N := c - 48.

Definition lower_char (c : N) : N :=
  if (65 <=? c) && (c <=? 90) then c + 32 else c.

(** [str.lower] on ASCII letters; other characters are left alone. *)
Definition ascii_lower (s : pystr) : pystr := List.map lower_char s.

(** *** [strptime] for numeric formats *)

(** What a format is made of.  Only the numeric directives [%Y %m %d %H %M
    %S] are known: names of days, months and zones depend on the locale and
    the host. *)
Inductive item : Type :=
| IYear | IMonth | IDay | IHour | IMinute | ISecond
| ISpaces
| ILiteral (c : N).

Definition directive (c : N) : option item :=
  if c =? ch "Y" then Some IYear
  else if c =? ch "m" then Some IMonth
  else if c =? ch "d" then Some IDay
  else if c =? ch "H" then Some IHour
  else if c =? ch "M" then Some IMinute
  else if c =? ch "S" then Some ISecond
  else None.

(** The format as the library reads it: a run of white space stands for
    [\s+], [%] starts a directive, anything else is a literal.  [None] for a
    directive that is not known here. *)
Fixpoint compile (after_space : bool) (format : pystr) : option (list item) :=
  match format with
  | [] => Some []
  | c :: format' =>
      if c =? ch "%" then
        match format' with
        | [] => None
        | d :: format'' =>
            match directive d, compile false format'' with
            | Some i, Some items => Some (i :: items)
            | _, _ => None
            end
        end
      else if is_space c then
        match compile true format' with
        | Some items => Some (if after_space then items else ISpaces :: items)
        | None => None
        end
      else
        match compile false format' with
        | Some items => Some (ILiteral c :: items)
        | None => None
        end
  end.

(** Two digits accepted by [ok], as a number, and the rest. *)
Definition two_digits (ok : N -> N -> bool) (s : pystr) : list (N * pystr) :=
  match s with
  | a :: b :: r =>
      if is_ascii_digit a && is_ascii_digit b
         && ok (digit_value a) (digit_value b)
      then [(10 * digit_value a + digit_value b, r)]
      else []
  | _ => []
  end.

Definition one_digit (ok : N -> bool) (s : pystr) : list (N * pystr) :=
  match s with
  | a :: r =>
      if is_ascii_digit a && ok (digit_value a)
      then [(digit_value a, r)]
      else []
  | [] => []
  end.

Definition four_digits (s : pystr) : list (N * pystr) :=
  match s with
  | a :: b :: c :: d :: r =>
      if is_ascii_digit a && is_ascii_digit b
         && is_ascii_digit c && is_ascii_digit d
      then [(1000 * digit_value a + 100 * digit_value b
             + 10 * digit_value c + digit_value d, r)]
      else []
  | _ => []
  end.

(** The rests of [s] after one or more white space characters, the shortest
    rest first: [\s+] is greedy. *)
Fixpoint space_rests (s : pystr) : list pystr :=
  match s with
  | [] => []
  | c :: s' => if is_space c then space_rests s' ++ [s'] else []
  end.

(** The ways an item matches at the start of [s], in the order the regular
    expression of the library tries them: a value and the rest. *)
Definition alternatives (i : item) (s : pystr) : list (N * pystr) :=
  match i with
  | IYear => four_digits s
  | IMonth =>
      two_digits (fun a b => ((a =? 1) && (b <=? 2)) || ((a =? 0) && (1 <=? b))) s
      ++ one_digit (fun a => 1 <=? a) s
  | IDay =>
      two_digits (fun a b => ((a =? 3) && (b <=? 1))
                             || ((1 <=? a) && (a <=? 2))
                             || ((a =? 0) && (1 <=? b))) s
      ++ one_digit (fun a => 1 <=? a) s
      ++ match s with
         | c :: s' => if c =? 32 then one_digit (fun a => 1 <=? a) s' else []
         | [] => []
         end
  | IHour =>
      two_digits (fun a b => ((a =? 2) && (b <=? 3)) || (a <=? 1)) s
      ++ one_digit (fun _ => true) s
  | IMinute =>
      two_digits (fun a _ => a <=? 5) s ++ one_digit (fun _ => true) s
  | ISecond =>
      two_digits (fun a b => ((a =? 6) && (b <=? 1)) || (a <=? 5)) s
      ++ one_digit (fun _ => true) s
  | ISpaces => List.map (fun r => (0, r)) (space_rests s)
  | ILiteral c =>
      match s with
      | d :: r =>
          if lower_char c =? lower_char d then [(0, r)] else []
      | [] => []
      end
  end.

Definition store (i : item) (v : N) (d : datetime) : datetime :=
  match i with
  | IYear => mk_datetime v (month d) (day d) (hour d) (minute d) (second d) 0
  | IMonth => mk_datetime (year d) v (day d) (hour d) (minute d) (second d) 0
  | IDay => mk_datetime (year d) (month d) v (hour d) (minute d) (second d) 0
  | IHour => mk_datetime (year d) (month d) (day d) v (minute d) (second d) 0
  | IMinute => mk_datetime (year d) (month d) (day d) (hour d) v (second d) 0
  | ISecond => mk_datetime (year d) (month d) (day d) (hour d) (minute d) v 0
  | ISpaces | ILiteral _ => d
  end.

Fixpoint first_success {A B : Type} (f : A -> option B) (l : list A)
  : option B :=
  match l with
  | [] => None
  | x :: l' =>
      match f x with
      | Some y => Some y
      | None => first_success f l'
      end
  end.

(** The first match of the items at the start of [s], with backtracking:
    the fields read and the rest. *)
Fixpoint run (items : list item) (acc : datetime) (s : pystr)
  : option (datetime * pystr) :=
  match items with
  | [] => Some (acc, s)
  | i :: items' =>
      first_success (fun vr => run items' (store i (fst vr) acc) (snd vr))
        (alternatives i s)
  end.

Definition is_leap (y : N) : bool :=
  ((y mod 4 =? 0) && negb (y mod 100 =? 0)) || (y mod 400 =? 0).

Definition days_in_month (y m : N) : N :=
  if m =? 2 then (if is_leap y then 29 else 28)
  else if (m =? 4) || (m =? 6) || (m =? 9) || (m =? 11) then 30
  else 31.

(** The checks of the [datetime] constructor. *)
Definition valid (d : datetime) : bool :=
  (1 <=? year d) && (year d <=? 9999)
  && (1 <=? month d) && (month d <=? 12)
  && (1 <=? day d) && (day d <=? days_in_month (year d) (month d))
  && (hour d <=? 23) && (minute d <=? 59) && (second d <=? 59).

(** [datetime.strptime] for formats of numeric directives, literals and
    white space, on ASCII digits: the pattern must match at the start and
    leave nothing, and the fields must make a date.  A field without a
    directive keeps its default (1900-01-01 00:00:00). *)
Definition strptime_numeric (date_string format : pystr)
  : outcome parsed_datetime :=
  match compile false format with
  | None => Raised
  | Some items =>
      match run items (mk_datetime 1900 1 1 0 0 0 0) date_string with
      | Some (d, []) =>
          if valid d
          then Returned {| naive_fields := d; tzinfo := None |}
          else Raised
      | _ => Raised
      end
  end.

(** *** [strftime] for the format of the exporter *)

Definition digit_char (n : N) : N := 48 + n mod 10.

Definition digits2 (n : N) : pystr := [digit_char (n / 10); digit_char n].

Definition digits4 (n : N) : pystr :=
  [digit_char (n / 1000); digit_char (n / 100); digit_char (n / 10);
   digit_char n].

(** A number in decimal without padding, for the years of a [datetime],
    which are at most 9999. *)
Definition decimal (n : N) : pystr :=
  if n <? 10 then [digit_char n]
  else if n <? 100 then digits2 n
  else if n <? 1000
       then [digit_char (n / 100); digit_char (n / 10); digit_char n]
       else digits4 n.

(** [dt.strftime("%Y-%m-%d")] as the C library behind it writes it: the
    year in decimal without padding (the year 1 is written [1], not
    [0001]), the month and the day with two digits; the empty string for
    any other format. *)
Definition strftime_ymd (d : datetime) (format : pystr) : pystr :=
  if bool_decide (format = py "%Y-%m-%d")
  then decimal (year d) ++ [ch "-"] ++ digits2 (month d)
       ++ [ch "-"] ++ digits2 (day d)
  else [].

(** *** The world as tables *)

Fixpoint lookup_table {V : Type} (k : pystr) (table : list (pystr * V))
  : option V :=
  match table with
  | [] => None
  | (k', v) :: table' =>
      if bool_decide (k' = k) then Some v else lookup_table k table'
  end.

(** The web (a response for a URL; any other request fails), the feeds (the
    entries of a response text), the decoder (its outcome for a link; any
    other link is reported as not decodable) and the cutoff. *)
Record world : Type := {
  web : list (pystr * response);
  feeds : list (pystr * list feed_entry);
  decoder : list (pystr * outcome decoded);
  cutoff : datetime
}.

Definition runtime (w : world) : Runtime :=
  {| strptime := strptime_numeric;
     strftime := strftime_ymd;
     re_digit := is_ascii_digit;
     str_lower := ascii_lower;
     new_decoderv1 link :=
       match lookup_table link (decoder w) with
       | Some o => o
       | None => Returned {| status := Some false; decoded_url := None |}
       end;
     requests_get address :=
       match lookup_table address (web w) with
       | Some r => Returned r
       | None => Raised
       end;
     feedparser_parse body := default [] (lookup_table body (feeds w));
     CUTOFF_DATE := cutoff w |}.

End Reference.

(** ** Sample inputs *)

(** A world without network, feeds or decodable links. *)
Definition world_empty : Reference.world :=
  {| Reference.web := []; Reference.feeds := []; Reference.decoder := [];
     Reference.cutoff := mk_datetime 2024 1 1 0 0 0 0 |}.

(** An article without a date, and one dated 0001-01-01, which parses to
    [datetime.min]. *)
Definition article_undated : article :=
  mk_article (py "Undated") [] [] (py "https://www.miamiherald.com/a") [] [].

Definition article_year_one : article :=
  mk_article (py "Dated") (py "0001-01-01") []
    (py "https://www.miamiherald.com/b") [] [].

(** A redirect link as the feed gives it, and an article found under it. *)
Definition link_redirect : pystr :=
  py "https://news.google.com/rss/articles/CBMiK2h0dHBz?oc=5".

Definition article_redirect : article :=
  mk_article (py "Storm Hits Florida") (py "2024-03-07") link_redirect
    [] [] [].

(** A link that already points at the publisher, and an article found
    under it. *)
Definition link_direct : pystr :=
  py "http://www.miamiherald.com/news/a1.html?utm=x".

Definition article_direct : article :=
  mk_article (py "Storm Hits Florida") (py "2024-03-07") link_direct
    [] [] [].

(** ** Further vocabulary *)

(** What every article has when it leaves the feed client: no author, no
    summary and a trimmed title. *)
Definition feed_shaped (a : article) : Prop :=
  author a = [] /\ summary a = [] /\ str_strip (title a) = title a.

(** The article [resolve_urls] makes of an article. *)
Definition resolved_article {rt : Runtime} (a : article) : article :=
  set_url a
    (stored_url a
       (default (google_url a)
          (decode_success (new_decoderv1 (google_url a))))).


(** Two feed entries whose titles differ by case and trailing white space,
    and a world where the first query returns them and every other query
    fails. *)
Definition entry_budget_1 : feed_entry :=
  {| entry_title := Some (py "Budget Vote Passes");
     entry_published := Some (py "2024-03-07");
     entry_link := Some (py "https://news.google.com/rss/articles/A");
     entry_source := Some (Some (py "Miami Herald")) |}.

Definition entry_budget_2 : feed_entry :=
  {| entry_title := Some (py "budget vote passes ");
     entry_published := Some (py "2024-03-08");
     entry_link := Some (py "https://news.google.com/rss/articles/B");
     entry_source := Some (Some (py "Miami Herald")) |}.

Definition world_budget : Reference.world :=
  {| Reference.web :=
       [(search_url (py "site:miamiherald.com"),
         {| status_code := 200; text := py "feed" |})];
     Reference.feeds := [(py "feed", [entry_budget_1; entry_budget_2])];
     Reference.decoder := [];
     Reference.cutoff := mk_datetime 2024 1 1 0 0 0 0 |}.

(** An entry attributed to a source whose name is not the publisher's but
    contains it, and a world where the first query returns it. *)
Definition entry_other_source : feed_entry :=
  {| entry_title := Some (py "Storm Hits Florida");
     entry_published := Some (py "2024-03-07");
     entry_link := Some (py "https://news.google.com/rss/articles/C");
     entry_source := Some (Some (py "Not the Miami Herald")) |}.

Definition world_other_source : Reference.world :=
  {| Reference.web :=
       [(search_url (py "site:miamiherald.com"),
         {| status_code := 200; text := py "feed" |})];
     Reference.feeds := [(py "feed", [entry_other_source])];
     Reference.decoder := [];
     Reference.cutoff := mk_datetime 2024 1 1 0 0 0 0 |}.
(* ===================================================================== *)
(** * Part II: properties                                                 *)
(* ===================================================================== *)

Example normalize_url_ex1 :
  normalize_url (py "http://amp.miamiherald.com/news/a1.html/?utm=x#top")
  = py "https://www.miamiherald.com/news/a1.html".
Proof. vm_compute. reflexivity. Qed.

(** ** String lemmas *)

Lemma strip_prefix_Some (p s r : pystr) :
  strip_prefix p s = Some r <-> s = p ++ r.
Proof.
  revert s. induction p as [|a p IH]; intros s; simpl.
  - split; intros H; [inversion H | subst]; reflexivity.
  - destruct s as [|b s]; [split; intros H; discriminate|].
    destruct (N.eqb_spec a b) as [->|Hne].
    + rewrite IH. split; intros H; [subst | inversion H]; reflexivity.
    + split; intros H; [discriminate | inversion H; congruence].
Qed.

(** ** The URL normalizer is idempotent *)

Lemma re_sub_amp_cons (c : N) (s : pystr) :
  re_sub_amp (c :: s) =
  match match_amp (c :: s) with
  | Some r => s_https_www ++ re_sub_amp r
  | None => c :: re_sub_amp s
  end.
Proof.
  simp re_sub_amp.
  generalize (Logic.inspect (match_amp (c :: s))).
  intros [[r|] E]; simp re_sub_amp; rewrite E; reflexivity.
Qed.

Lemma match_amp_Some (s r : pystr) :
  match_amp s = Some r <-> s = s_amp1 ++ r \/ s = s_amp2 ++ r.
Proof.
  unfold match_amp. split.
  - destruct (strip_prefix s_http s) as [r1|] eqn:E1; [|discriminate].
    apply strip_prefix_Some in E1. subst s.
    destruct (strip_prefix s_s r1) as [r2|] eqn:E2.
    + apply strip_prefix_Some in E2. subst r1.
      destruct (strip_prefix s_amp_tail r2) as [r3|] eqn:E3.
      * intros H; inversion H; subst. apply strip_prefix_Some in E3.
        subst. right. reflexivity.
      * intros H. apply strip_prefix_Some in H. discriminate.
    + intros H. apply strip_prefix_Some in H. subst. left. reflexivity.
  - intros [-> | ->]; reflexivity.
Qed.

Lemma match_amp_app (s r q : pystr) :
  match_amp s = Some r -> match_amp (s ++ q) = Some (r ++ q).
Proof.
  rewrite !match_amp_Some. intros [-> | ->]; [left | right];
    rewrite <- app_assoc; reflexivity.
Qed.

Lemma has_amp_prefix (p q : pystr) :
  has_amp (p ++ q) = false -> has_amp p = false.
Proof.
  induction p as [|c p IH]; [reflexivity|].
  change ((c :: p) ++ q) with (c :: (p ++ q)).
  cbn [has_amp].
  destruct (match_amp (c :: p)) as [r|] eqn:E.
  - apply match_amp_app with (q := q) in E. cbn [app] in E.
    rewrite E. discriminate.
  - destruct (match_amp (c :: p ++ q)); [discriminate | exact IH].
Qed.

Lemma re_sub_amp_fixed (s : pystr) : has_amp s = false -> re_sub_amp s = s.
Proof.
  induction s as [|c s IH]; [reflexivity|].
  cbn [has_amp]. rewrite re_sub_amp_cons.
  destruct (match_amp (c :: s)); [discriminate|].
  intros H. rewrite (IH H). reflexivity.
Qed.

(** A literal without the letter [h] at the head of the substitution's
    output was copied from the input: every replacement starts with [h]. *)
Lemma re_sub_amp_copied (q : pystr) :
  ~ In 104 q ->
  forall s t, re_sub_amp s = q ++ t -> exists t', s = q ++ t'.
Proof.
  induction q as [|x q IH]; intros Hq s t H; [exists s; reflexivity|].
  destruct s as [|c s]; [simp re_sub_amp in H; discriminate|].
  rewrite re_sub_amp_cons in H.
  destruct (match_amp (c :: s)) as [r|].
  - inversion H; subst. exfalso. apply Hq. left. reflexivity.
  - inversion H; subst.
    destruct (IH (fun Hin => Hq (or_intror Hin)) s t) as [t' ->];
      [assumption|].
    exists t'. reflexivity.
Qed.

Lemma has_amp_www (s : pystr) : has_amp (s_https_www ++ s) = has_amp s.
Proof. reflexivity. Qed.

(** After the substitution the pattern matches nowhere. *)
Lemma has_amp_re_sub_amp (s : pystr) : has_amp (re_sub_amp s) = false.
Proof.
  remember (length s) as n eqn:Hn. revert s Hn.
  induction n as [n IH] using lt_wf_ind. intros [|c s] Hn; [reflexivity|].
  rewrite re_sub_amp_cons.
  destruct (match_amp (c :: s)) as [r|] eqn:E.
  - rewrite has_amp_www. apply (IH (length r)); [|reflexivity].
    apply match_amp_length in E. lia.
  - cbn [has_amp].
    destruct (match_amp (c :: re_sub_amp s)) as [r|] eqn:E'.
    + exfalso. apply match_amp_Some in E'.
      assert (Hs : exists t, c :: s = s_amp1 ++ t \/ c :: s = s_amp2 ++ t).
      { destruct E' as [E' | E']; inversion E'; subst.
        - destruct (re_sub_amp_copied (tl s_amp1)) with (s := s) (t := r)
            as [t ->]; [cbv; intuition discriminate | assumption |].
          exists t. left. reflexivity.
        - destruct (re_sub_amp_copied (tl s_amp2)) with (s := s) (t := r)
            as [t ->]; [cbv; intuition discriminate | assumption |].
          exists t. right. reflexivity. }
      destruct Hs as [t Ht]. apply match_amp_Some in Ht. congruence.
    + apply (IH (length s)); [simpl in Hn; lia | reflexivity].
Qed.

Lemma split_head_prefix (sep : N) (s : pystr) :
  exists t, s = split_head sep s ++ t.
Proof.
  induction s as [|c s [t IH]]; [exists []; reflexivity|].
  simpl. destruct (c =? sep).
  - exists (c :: s). reflexivity.
  - exists t. simpl. congruence.
Qed.

Lemma rstrip_by_prefix (strip : N -> bool) (s : pystr) :
  exists t, s = rstrip_by strip s ++ t.
Proof.
  induction s as [|c s [t IH]]; [exists []; reflexivity|].
  simpl. destruct (rstrip_by strip s) as [|d r].
  - destruct (strip c); [exists (c :: s) | exists t]; simpl in *; congruence.
  - exists t. simpl in *. congruence.
Qed.

Lemma split_head_no_sep (sep : N) (s : pystr) : ~ In sep (split_head sep s).
Proof.
  induction s as [|c s IH]; simpl; [tauto|].
  destruct (N.eqb_spec c sep); simpl; [tauto|]. intros [?|?]; tauto.
Qed.

Lemma split_head_fixed (sep : N) (s : pystr) :
  ~ In sep s -> split_head sep s = s.
Proof.
  induction s as [|c s IH]; simpl; [reflexivity|]. intros H.
  destruct (N.eqb_spec c sep) as [->|_]; [tauto|].
  rewrite IH; [reflexivity | tauto].
Qed.

(** [rstrip] leaves a string alone exactly when it is empty or its last
    character is not stripped. *)
Lemma rstrip_by_fixed (strip : N -> bool) (s : pystr) :
  rstrip_by strip s = s <-> s = [] \/ strip (List.last s 0) = false.
Proof.
  induction s as [|c s IH]; [simpl; tauto|].
  cbn [rstrip_by]. destruct s as [|d s].
  - simpl. destruct (strip c); split; intros H;
      try discriminate; try tauto; destruct H; congruence.
  - change (List.last (c :: d :: s) 0) with (List.last (d :: s) 0).
    destruct (rstrip_by strip (d :: s)) as [|e r] eqn:E.
    + split.
      * destruct (strip c); discriminate.
      * intros [H|H]; [discriminate|].
        assert ([] = d :: s) by (apply IH; right; exact H). discriminate.
    + split.
      * intros H. right. assert (H1 : e :: r = d :: s) by congruence.
        apply IH in H1. destruct H1; [discriminate | assumption].
      * intros [H|H]; [discriminate|].
        f_equal. apply IH. right. exact H.
Qed.

Lemma rstrip_by_idem (strip : N -> bool) (s : pystr) :
  rstrip_by strip (rstrip_by strip s) = rstrip_by strip s.
Proof.
  induction s as [|c s IH]; [reflexivity|].
  cbn [rstrip_by]. destruct (rstrip_by strip s) as [|d r] eqn:E.
  - destruct (strip c) eqn:Ec; simpl; [reflexivity | rewrite Ec; reflexivity].
  - change (rstrip_by strip (c :: d :: r))
      with (match rstrip_by strip (d :: r) with
            | [] => if strip c then [] else [c]
            | x :: r' => c :: x :: r'
            end).
    rewrite IH. reflexivity.
Qed.

Lemma not_in_prefix (x : N) (p q : pystr) : ~ In x (p ++ q) -> ~ In x p.
Proof. intros H Hin. apply H, in_or_app. left. exact Hin. Qed.

Lemma startswith_Some (p s : pystr) :
  startswith p s = true <-> exists r, s = p ++ r.
Proof.
  revert s. induction p as [|a p IH]; intros s; simpl.
  - split; [exists s; reflexivity | reflexivity].
  - destruct s as [|b s]; [split; [discriminate | intros [r H]; discriminate]|].
    destruct (N.eqb_spec a b) as [->|Hne]; simpl.
    + rewrite IH. split; intros [r H]; exists r; [subst | inversion H];
        reflexivity.
    + split; [discriminate | intros [r H]; inversion H; congruence].
Qed.

(** Over the scheme prefix the pattern can only match at the very start,
    and does so when [amp.] follows, for either scheme. *)
Lemma has_amp_http (r : pystr) :
  has_amp (s_http_scheme ++ r) =
  match strip_prefix s_amp_dot r with Some _ => true | None => has_amp r end.
Proof. reflexivity. Qed.

Lemma has_amp_https (r : pystr) :
  has_amp (s_https_scheme ++ r) =
  match strip_prefix s_amp_dot r with Some _ => true | None => has_amp r end.
Proof.
  change (has_amp (s_https_scheme ++ r))
    with (match
             match strip_prefix s_amp_dot r with
             | Some x => Some x
             | None => None
             end
           with
           | Some _ => true
           | None => has_amp r
           end).
  destruct (strip_prefix s_amp_dot r); reflexivity.
Qed.

Lemma normal_fixed (u : pystr) : normal u -> normalize_url u = u.
Proof.
  intros [Ha Hq Hh Hs Hp]. unfold normalize_url.
  destruct u as [|c u]; [reflexivity|]. cbn [truthy negb].
  rewrite (re_sub_amp_fixed _ Ha), (split_head_fixed _ _ Hq),
    (split_head_fixed _ _ Hh), Hs, Hp. reflexivity.
Qed.

Lemma upgrade_scheme_normal (u : pystr) :
  has_amp u = false -> ~ In c_question u -> ~ In c_hash u ->
  rstrip_by (N.eqb c_slash) u = u ->
  normal (upgrade_scheme u).
Proof.
  intros Ha Hq Hh Hs. unfold upgrade_scheme.
  destruct (startswith s_http_scheme u) eqn:Hp; [|split; assumption].
  apply startswith_Some in Hp. destruct Hp as [r ->].
  change (skipn 7 (s_http_scheme ++ r)) with r. split.
  - rewrite has_amp_http in Ha. rewrite has_amp_https. exact Ha.
  - intros [H|H]; [discriminate|]. revert H.
    repeat (intros [H|H]; [discriminate | revert H]). intros H.
    apply Hq. apply in_or_app. right. exact H.
  - intros [H|H]; [discriminate|]. revert H.
    repeat (intros [H|H]; [discriminate | revert H]). intros H.
    apply Hh. apply in_or_app. right. exact H.
  - apply rstrip_by_fixed. right. apply rstrip_by_fixed in Hs.
    destruct Hs as [Hs|Hs]; [discriminate|].
    destruct r as [|d r]; [discriminate Hs | exact Hs].
  - reflexivity.
Qed.

Lemma normalize_url_normal (u : pystr) : normal (normalize_url u).
Proof.
  unfold normalize_url. destruct u as [|c u].
  - split; try reflexivity; simpl; tauto.
  - cbn [truthy negb]. set (v := re_sub_amp (c :: u)).
    set (v1 := split_head c_question v).
    set (v2 := split_head c_hash v1).
    set (v3 := rstrip_by (N.eqb c_slash) v2).
    destruct (split_head_prefix c_question v) as [t1 H1].
    destruct (split_head_prefix c_hash v1) as [t2 H2].
    destruct (rstrip_by_prefix (N.eqb c_slash) v2) as [t3 H3].
    fold v1 in H1. fold v2 in H2. fold v3 in H3.
    assert (A1 : has_amp v1 = false).
    { apply has_amp_prefix with t1. rewrite <- H1. apply has_amp_re_sub_amp. }
    assert (A2 : has_amp v2 = false).
    { apply has_amp_prefix with t2. rewrite <- H2. exact A1. }
    assert (Q1 : ~ In c_question v1) by apply split_head_no_sep.
    assert (Q2 : ~ In c_question v2).
    { apply not_in_prefix with t2. rewrite <- H2. exact Q1. }
    assert (N2 : ~ In c_hash v2) by apply split_head_no_sep.
    apply upgrade_scheme_normal.
    + apply has_amp_prefix with t3. rewrite <- H3. exact A2.
    + apply not_in_prefix with t3. rewrite <- H3. exact Q2.
    + apply not_in_prefix with t3. rewrite <- H3. exact N2.
    + apply rstrip_by_idem.
Qed.

(** C1. The URL normalizer is idempotent: for every string [u], the empty
    string included, [normalize_url (normalize_url u) = normalize_url u]. *)
Theorem normalize_url_idempotent (u : pystr) :
  normalize_url (normalize_url u) = normalize_url u.
Proof. apply normal_fixed, normalize_url_normal. Qed.

(** ** The order on dates *)

Lemma lex_compare_refl (a : list N) : lex_compare a a = Eq.
Proof.
  induction a as [|x a IH]; simpl; [reflexivity|].
  rewrite N.compare_refl. exact IH.
Qed.

Lemma lex_compare_eq (a b : list N) : lex_compare a b = Eq -> a = b.
Proof.
  revert b. induction a as [|x a IH]; intros [|y b]; simpl;
    try discriminate; [reflexivity|].
  destruct (N.compare_spec x y) as [->|_|_]; try discriminate.
  intros H. f_equal. apply IH. exact H.
Qed.

Lemma lex_compare_antisym (a b : list N) :
  lex_compare b a = CompOpp (lex_compare a b).
Proof.
  revert b. induction a as [|x a IH]; intros [|y b]; simpl;
    try reflexivity.
  rewrite (N.compare_antisym x y).
  destruct (x ?= y); simpl; [apply IH | reflexivity | reflexivity].
Qed.

Lemma lex_compare_lt_trans (a b c : list N) :
  lex_compare a b = Lt -> lex_compare b c = Lt -> lex_compare a c = Lt.
Proof.
  revert b c. induction a as [|x a IH]; intros [|y b] [|z c]; simpl;
    try discriminate; try reflexivity.
  destruct (N.compare_spec x y) as [->|Hxy|Hxy]; try discriminate.
  - destruct (y ?= z); try discriminate; [apply IH | reflexivity].
  - intros _. destruct (N.compare_spec y z) as [->|Hyz|Hyz]; try discriminate.
    + intros _. apply N.compare_lt_iff in Hxy. rewrite Hxy. reflexivity.
    + intros _. assert (H : x < z) by lia.
      apply N.compare_lt_iff in H. rewrite H. reflexivity.
Qed.

Lemma dt_fields_inj (a b : datetime) : dt_fields a = dt_fields b -> a = b.
Proof.
  destruct a, b. unfold dt_fields. simpl. intros H.
  inversion H. reflexivity.
Qed.

Lemma dt_compare_refl (a : datetime) : dt_compare a a = Eq.
Proof. apply lex_compare_refl. Qed.

Lemma dt_compare_eq (a b : datetime) : dt_compare a b = Eq -> a = b.
Proof. intros H. apply dt_fields_inj, lex_compare_eq, H. Qed.

Lemma dt_compare_antisym (a b : datetime) :
  dt_compare b a = CompOpp (dt_compare a b).
Proof. apply lex_compare_antisym. Qed.

Lemma dt_compare_lt_trans (a b c : datetime) :
  dt_compare a b = Lt -> dt_compare b c = Lt -> dt_compare a c = Lt.
Proof. apply lex_compare_lt_trans. Qed.

Lemma dt_le_refl (a : datetime) : dt_le a a.
Proof. unfold dt_le. rewrite dt_compare_refl. discriminate. Qed.

Lemma dt_le_trans (a b c : datetime) : dt_le a b -> dt_le b c -> dt_le a c.
Proof.
  unfold dt_le. intros Hab Hbc.
  destruct (dt_compare a b) eqn:Eab; [| |congruence].
  - apply dt_compare_eq in Eab. subst. exact Hbc.
  - destruct (dt_compare b c) eqn:Ebc; [| |congruence].
    + apply dt_compare_eq in Ebc. subst. rewrite Eab. discriminate.
    + rewrite (dt_compare_lt_trans a b c Eab Ebc). discriminate.
Qed.

Lemma dt_le_antisym (a b : datetime) : dt_le a b -> dt_le b a -> a = b.
Proof.
  unfold dt_le. rewrite (dt_compare_antisym a b). intros Hab Hba.
  apply dt_compare_eq. destruct (dt_compare a b); simpl in *; congruence.
Qed.

Lemma dt_lt_true (a b : datetime) : dt_lt a b = true <-> dt_compare a b = Lt.
Proof. unfold dt_lt. destruct (dt_compare a b); split; congruence. Qed.

Lemma dt_lt_false (a b : datetime) : dt_lt a b = false <-> dt_le b a.
Proof.
  unfold dt_lt, dt_le. rewrite (dt_compare_antisym a b).
  destruct (dt_compare a b); simpl; split; congruence.
Qed.

Lemma dt_lt_le (a b : datetime) : dt_lt a b = true -> dt_le a b.
Proof. rewrite dt_lt_true. unfold dt_le. intros ->. discriminate. Qed.

Lemma dt_ge_true (a b : datetime) : dt_ge a b = true <-> dt_le b a.
Proof.
  unfold dt_ge, dt_le. rewrite (dt_compare_antisym a b).
  destruct (dt_compare a b); simpl; split; congruence.
Qed.

Lemma dt_ge_false (a b : datetime) : dt_ge a b = false <-> dt_compare a b = Lt.
Proof. unfold dt_ge. destruct (dt_compare a b); split; congruence. Qed.

Lemma dt_eqb_true (a b : datetime) : dt_eqb a b = true <-> a = b.
Proof.
  unfold dt_eqb. split.
  - destruct (dt_compare a b) eqn:E; try discriminate.
    intros _. apply dt_compare_eq, E.
  - intros ->. rewrite dt_compare_refl. reflexivity.
Qed.

(** ** The stable sort *)

Section Sorting.

Context {A : Type} (key : A -> datetime).

Lemma insert_reverse_perm (x : A) (l : list A) :
  Permutation (insert_reverse key x l) (x :: l).
Proof.
  induction l as [|y l IH]; simpl; [reflexivity|].
  destruct (dt_lt (key x) (key y)); [|reflexivity].
  rewrite IH. apply perm_swap.
Qed.

Lemma sorted_reverse_perm (l : list A) :
  Permutation (sorted_reverse key l) l.
Proof.
  induction l as [|x l IH]; simpl; [reflexivity|].
  rewrite insert_reverse_perm. apply perm_skip, IH.
Qed.

Lemma insert_reverse_sorted (x : A) (l : list A) :
  StronglySorted (descending key) l ->
  StronglySorted (descending key) (insert_reverse key x l).
Proof.
  induction 1 as [|y l Hl IH Hy]; simpl.
  - constructor; constructor.
  - destruct (dt_lt (key x) (key y)) eqn:E.
    + constructor; [exact IH|].
      apply (Permutation_Forall (Permutation_sym (insert_reverse_perm x l))).
      constructor; [apply dt_lt_le; exact E | exact Hy].
    + apply dt_lt_false in E. constructor.
      * constructor; assumption.
      * constructor; [exact E|].
        eapply List.Forall_impl; [|exact Hy].
        intros z Hz. unfold descending in *.
        apply dt_le_trans with (key y); assumption.
Qed.

Lemma sorted_reverse_sorted (l : list A) :
  StronglySorted (descending key) (sorted_reverse key l).
Proof.
  induction l as [|x l IH]; simpl; [constructor|].
  apply insert_reverse_sorted, IH.
Qed.

(** Stability: the elements of one key keep their order. *)
Lemma insert_reverse_stable (k : datetime) (x : A) (l : list A) :
  List.filter (same_key key k) (insert_reverse key x l)
  = List.filter (same_key key k) (x :: l).
Proof.
  induction l as [|y l IH]; [reflexivity|].
  cbn [insert_reverse]. destruct (dt_lt (key x) (key y)) eqn:E; [|reflexivity].
  cbn [List.filter] in *. rewrite IH.
  destruct (same_key key k x) eqn:Ex; [|reflexivity].
  destruct (same_key key k y) eqn:Ey; [|reflexivity].
  unfold same_key in Ex, Ey. apply dt_eqb_true in Ex, Ey.
  apply dt_lt_true in E. rewrite Ex, Ey, dt_compare_refl in E. discriminate.
Qed.

Lemma sorted_reverse_stable (k : datetime) (l : list A) :
  List.filter (same_key key k) (sorted_reverse key l)
  = List.filter (same_key key k) l.
Proof.
  induction l as [|x l IH]; [reflexivity|].
  cbn [sorted_reverse fold_right]. rewrite insert_reverse_stable.
  cbn [List.filter]. fold (sorted_reverse key l). rewrite IH. reflexivity.
Qed.

Lemma filter_refine (p q : A -> bool) (l : list A) :
  (forall a, p a = true -> q a = true) ->
  List.filter p (List.filter q l) = List.filter p l.
Proof.
  intros Hpq. induction l as [|a l IH]; [reflexivity|].
  simpl. destruct (q a) eqn:Eq.
  - simpl. rewrite IH. reflexivity.
  - rewrite IH. destruct (p a) eqn:Ep; [|reflexivity].
    apply Hpq in Ep. congruence.
Qed.

(** Any property that holds for one key only is kept in order. *)
Lemma sorted_reverse_stable_class (p : A -> bool) (k : datetime)
    (l : list A) :
  (forall a, p a = true -> key a = k) ->
  List.filter p (sorted_reverse key l) = List.filter p l.
Proof.
  intros Hp.
  assert (Hq : forall a, p a = true -> same_key key k a = true).
  { intros a Ha. apply dt_eqb_true, Hp, Ha. }
  rewrite <- (filter_refine p (same_key key k) (sorted_reverse key l) Hq).
  rewrite sorted_reverse_stable. apply filter_refine, Hq.
Qed.

(** A list sorted by descending key is fixed by the elements of each key,
    in their order. *)
Lemma descending_stable_unique (l1 l2 : list A) :
  StronglySorted (descending key) l1 ->
  StronglySorted (descending key) l2 ->
  (forall k, List.filter (same_key key k) l1 = List.filter (same_key key k) l2) ->
  l1 = l2.
Proof.
  intros H1. revert l2. induction H1 as [|a l1 Hs1 IH Ha]; intros l2 H2 Hf.
  - destruct l2 as [|b l2]; [reflexivity|].
    specialize (Hf (key b)). simpl in Hf. unfold same_key in Hf at 1.
    rewrite (proj2 (dt_eqb_true _ _) eq_refl) in Hf. discriminate.
  - destruct H2 as [|b l2 Hs2 Hb].
    + specialize (Hf (key a)). simpl in Hf. unfold same_key in Hf at 1.
      rewrite (proj2 (dt_eqb_true _ _) eq_refl) in Hf. discriminate.
    + assert (Hin : forall (x : A) (l l' : list A),
                 List.filter (same_key key (key x)) (x :: l)
                 = List.filter (same_key key (key x)) l' -> In x l').
      { intros x l l' E. simpl in E. unfold same_key in E at 1.
        rewrite (proj2 (dt_eqb_true _ _) eq_refl) in E.
        assert (Hx : In x (List.filter (same_key key (key x)) l')).
        { rewrite <- E. left. reflexivity. }
        apply filter_In in Hx. tauto. }
      assert (Hab : dt_le (key a) (key b)).
      { destruct (Hin a l1 (b :: l2) (Hf (key a))) as [->|Hi].
        - apply dt_le_refl.
        - apply (proj1 (List.Forall_forall _ _) Hb a Hi). }
      assert (Hba : dt_le (key b) (key a)).
      { destruct (Hin b l2 (a :: l1) (eq_sym (Hf (key b)))) as [->|Hi].
        - apply dt_le_refl.
        - apply (proj1 (List.Forall_forall _ _) Ha b Hi). }
      assert (Hk : key a = key b) by (apply dt_le_antisym; assumption).
      assert (Heq : a = b).
      { pose proof (Hf (key a)) as E. cbn [List.filter] in E.
        assert (Ea : same_key key (key a) a = true)
          by (apply dt_eqb_true; reflexivity).
        assert (Eb : same_key key (key a) b = true)
          by (apply dt_eqb_true; symmetry; exact Hk).
        rewrite Ea, Eb in E. congruence. }
      subst b. f_equal. apply IH; [exact Hs2|].
      intros k. specialize (Hf k). cbn [List.filter] in Hf.
      destruct (same_key key k a); congruence.
Qed.

End Sorting.

(** ** The exporter *)


Section Exporter.

Context {rt : Runtime}.

Lemma parses_to_key (d : option datetime) (a : article) :
  parses_to d a = true -> sort_key a = default datetime_min d.
Proof.
  unfold parses_to, sort_key.
  destruct (parse_date (publish_date a)) as [x|], d as [y|]; simpl;
    try discriminate; [|reflexivity].
  apply dt_eqb_true.
Qed.

Lemma parses_to_spec (d : option datetime) (a : article) :
  parses_to d a = true <-> parse_date (publish_date a) = d.
Proof.
  unfold parses_to.
  destruct (parse_date (publish_date a)) as [x|], d as [y|];
    try (split; congruence).
  rewrite dt_eqb_true. split; congruence.
Qed.


(** C10.  The sort of the exporter is stable.  The rows are those of the
    sorted articles, and in the sorted list the articles whose date strings
    parse to the same instant keep the order of the input, as do the
    articles of unknown date among themselves and, more generally, the
    articles of each sort key.  The order is determined by the input and
    the parsed dates: the sorted list is the only list in descending order
    of sort key that keeps the articles of each key in input order. *)
Theorem write_csv_stable (articles : list article) (filename : pystr) :
  exists sorted_articles : list article,
    rows (write_csv articles filename)
    = List.map row_of_article sorted_articles
    /\ (forall dt : datetime,
          List.filter (parses_to (Some dt)) sorted_articles
          = List.filter (parses_to (Some dt)) articles)
    /\ List.filter (parses_to None) sorted_articles
       = List.filter (parses_to None) articles
    /\ (forall k : datetime,
          List.filter (same_key sort_key k) sorted_articles
          = List.filter (same_key sort_key k) articles)
    /\ StronglySorted (descending sort_key) sorted_articles
    /\ (forall l : list article,
          StronglySorted (descending sort_key) l ->
          (forall k : datetime,
             List.filter (same_key sort_key k) l
             = List.filter (same_key sort_key k) articles) ->
          l = sorted_articles).
Proof.
  exists (sorted_reverse sort_key articles).
  split; [reflexivity|].
  split.
  { intros dt. apply sorted_reverse_stable_class with (k := dt).
    intros a Ha. apply (parses_to_key (Some dt) a Ha). }
  split.
  { apply sorted_reverse_stable_class with (k := datetime_min).
    intros a Ha. apply (parses_to_key None a Ha). }
  split; [intros k; apply sorted_reverse_stable|].
  split; [apply sorted_reverse_sorted|].
  intros l Hl Hf. apply (descending_stable_unique sort_key).
  - exact Hl.
  - apply sorted_reverse_sorted.
  - intros k. rewrite Hf. symmetry. apply sorted_reverse_stable.
Qed.

End Exporter.




(** ** Loops that append *)

Lemma fold_left_select {A B : Type} (p : A -> bool) (f : A -> B)
    (l : list A) (acc : list B) :
  fold_left (fun acc a => if p a then acc ++ [f a] else acc) l acc
  = acc ++ List.map f (List.filter p l).
Proof.
  revert acc. induction l as [|a l IH]; intros acc; simpl.
  - rewrite app_nil_r. reflexivity.
  - rewrite IH. destruct (p a); [|reflexivity].
    simpl. rewrite <- app_assoc. reflexivity.
Qed.

Lemma filter_sublist {A : Type} (p : A -> bool) (l : list A) :
  sublist (List.filter p l) l.
Proof.
  induction l as [|a l IH]; simpl; [constructor|].
  destruct (p a); [apply sublist_skip | apply sublist_cons]; exact IH.
Qed.

Lemma contains_spec (needle s : pystr) :
  contains needle s = true <-> exists p q, s = p ++ needle ++ q.
Proof.
  induction s as [|c s IH].
  - cbn [contains]. rewrite orb_false_r, startswith_Some. split.
    + intros [r H]. exists [], r. exact H.
    + intros [p [q H]]. destruct p as [|x p]; [|discriminate].
      exists q. exact H.
  - cbn [contains]. rewrite orb_true_iff, startswith_Some, IH. split.
    + intros [[r H]|[p [q H]]].
      * exists [], r. exact H.
      * exists (c :: p), q. rewrite H. reflexivity.
    + intros [[|x p] [q H]].
      * left. exists q. exact H.
      * right. exists p, q. inversion H. reflexivity.
Qed.

Section Stages.

Context {rt : Runtime}.

(** ** The filter *)

Lemma filter_by_date_filter (articles : list article) :
  filter_by_date articles = List.filter recent articles.
Proof.
  unfold filter_by_date.
  rewrite (fold_left_select recent (fun a => a)). simpl.
  apply map_id.
Qed.

Lemma recent_spec (a : article) :
  recent a = true
  <-> parse_date (publish_date a) = None
      \/ exists dt, parse_date (publish_date a) = Some dt
                    /\ dt_le CUTOFF_DATE dt.
Proof.
  unfold recent. destruct (parse_date (publish_date a)) as [dt|].
  - rewrite dt_ge_true. split.
    + intros H. right. exists dt. split; [reflexivity | exact H].
    + intros [H|[dt' [H H']]]; [discriminate|]. inversion H. exact H'.
  - split; [intros _; left; reflexivity | reflexivity].
Qed.

Lemma not_recent_spec (a : article) :
  recent a = false
  <-> exists dt, parse_date (publish_date a) = Some dt
                 /\ dt_compare dt CUTOFF_DATE = Lt.
Proof.
  unfold recent. destruct (parse_date (publish_date a)) as [dt|].
  - rewrite dt_ge_false. split.
    + intros H. exists dt. split; [reflexivity | exact H].
    + intros [dt' [H H']]. inversion H. exact H'.
  - split; [discriminate | intros [dt [H _]]; discriminate].
Qed.

(** C3.  The filter keeps exactly the articles whose date string parses to
    nothing (unknown) or to an instant at or after the cutoff, in the order
    of the input; every article it removes has a parsed date strictly
    before the cutoff. *)
Theorem filter_by_date_spec (articles : list article) :
  filter_by_date articles = List.filter recent articles
  /\ (forall a : article,
        In a (filter_by_date articles)
        <-> In a articles
            /\ (parse_date (publish_date a) = None
                \/ exists dt, parse_date (publish_date a) = Some dt
                              /\ dt_le CUTOFF_DATE dt))
  /\ (forall a : article,
        In a articles -> ~ In a (filter_by_date articles) ->
        exists dt, parse_date (publish_date a) = Some dt
                   /\ dt_compare dt CUTOFF_DATE = Lt)
  /\ sublist (filter_by_date articles) articles.
Proof.
  rewrite filter_by_date_filter.
  split; [reflexivity|]. split; [|split].
  - intros a. rewrite filter_In, recent_spec. reflexivity.
  - intros a Hin Hout. apply not_recent_spec.
    destruct (recent a) eqn:E; [|reflexivity].
    exfalso. apply Hout. apply filter_In. split; assumption.
  - apply filter_sublist.
Qed.

(** ** The feed query client *)

Lemma entry_step_select (entries : list feed_entry) (acc : list article) :
  fold_left entry_step entries acc
  = acc ++ List.map article_of_entry (List.filter entry_kept entries).
Proof.
  rewrite <- (fold_left_select entry_kept article_of_entry).
  revert acc. induction entries as [|e entries IH]; intros acc;
    [reflexivity|].
  simpl. rewrite <- IH. f_equal.
  unfold entry_step, entry_kept.
  destruct (truthy (entry_source_name e)
            && negb (contains s_miami_herald (entry_source_name e)));
    reflexivity.
Qed.

Lemma feed_articles_filter (entries : list feed_entry) :
  feed_articles entries
  = List.map article_of_entry (List.filter entry_kept entries).
Proof. apply entry_step_select. Qed.

Lemma entry_kept_false (e : feed_entry) :
  entry_kept e = false
  <-> entry_source_name e <> []
      /\ ~ exists p q, entry_source_name e = p ++ s_miami_herald ++ q.
Proof.
  unfold entry_kept. cbv zeta.
  rewrite negb_false_iff, andb_true_iff, negb_true_iff.
  rewrite <- (contains_spec s_miami_herald (entry_source_name e)).
  generalize (contains s_miami_herald (entry_source_name e)).
  destruct (entry_source_name e) as [|c s]; intros b; cbn [truthy].
  - split; [intros [H _]; discriminate | intros [H _]; congruence].
  - destruct b.
    + split; [intros [_ H]; discriminate | intros [_ H]; exfalso; auto].
    + split; intros _; split; congruence.
Qed.

(** C8 (as the code has it).  The articles of a feed are those of its
    entries that pass the test on the source, in order.  An entry whose
    source has a title is kept when that title is empty or contains the
    publisher's display name as a substring, letter case included, and is
    discarded otherwise; an entry without a source, or whose source has
    no title, is kept.  So a source name that merely contains the display
    name is kept, although it is not the display name.  [fetch_gnews_rss]
    returns these articles for the feed of a response of status 200. *)
Theorem fetch_gnews_rss_source_filter (entries : list feed_entry) :
  feed_articles entries
  = List.map article_of_entry
      (List.filter
         (fun e =>
            match entry_source e with
            | Some (Some s) => negb (truthy s) || contains s_miami_herald s
            | Some None => true
            | None => true
            end) entries)
  /\ (forall s : pystr,
        contains s_miami_herald s = true
        <-> exists p q, s = p ++ s_miami_herald ++ q)
  /\ (forall (query : pystr) (resp : response),
        requests_get (search_url query) = Returned resp ->
        status_code resp = 200%Z ->
        feedparser_parse (text resp) = entries ->
        fetch_gnews_rss query = feed_articles entries).
Proof.
  split; [|split].
  - rewrite feed_articles_filter. f_equal. apply filter_ext. intros e.
    unfold entry_kept, entry_source_name. cbv zeta.
    destruct (entry_source e) as [[s|]|]; cbn [default]; try reflexivity.
    rewrite negb_andb, negb_involutive. reflexivity.
  - intros s. apply contains_spec.
  - intros query resp Hget Hstatus Hfeed. unfold fetch_gnews_rss.
    rewrite Hget, Hstatus, Hfeed. reflexivity.
Qed.

End Stages.

(** C8, counterexample.  The source of the entry is named
    [Not the Miami Herald], which is not the display name of the
    publisher, and the entry is kept: the feed client returns its
    article. *)
Lemma fetch_gnews_rss_keeps_other_source :
  entry_source entry_other_source = Some (Some (py "Not the Miami Herald"))
  /\ py "Not the Miami Herald" <> py "Miami Herald"
  /\ feed_articles [entry_other_source]
     = [article_of_entry entry_other_source]
  /\ List.map title
       (fetch_gnews_rss (rt := Reference.runtime world_other_source)
          (py "site:miamiherald.com"))
     = [py "Storm Hits Florida"].
Proof.
  split; [reflexivity|]. split; [vm_compute; discriminate|].
  split; vm_compute; reflexivity.
Qed.

(** ** Resolution *)

Section Resolution.

Context {rt : Runtime}.

Lemma resolve_google_news_url_returns (link : pystr) :
  resolve_google_news_url link
  = Returned (default link (decode_success (new_decoderv1 link))).
Proof.
  unfold resolve_google_news_url, decode_success.
  destruct (new_decoderv1 link) as [result|]; [|reflexivity].
  destruct (default false (status result)); [|reflexivity].
  destruct (decoded_url result) as [d|]; [|reflexivity].
  simpl. destruct (truthy d); reflexivity.
Qed.

Lemma resolve_article_returns (a : article) :
  resolve_article a
  = Returned
      (set_url a
         (stored_url a
            (default (google_url a)
               (decode_success (new_decoderv1 (google_url a)))))).
Proof.
  unfold resolve_article, stored_url.
  rewrite resolve_google_news_url_returns.
  destruct (contains s_domain _); reflexivity.
Qed.

Lemma resolve_urls_returns (articles : list article) :
  resolve_urls articles
  = Returned
      (List.map
         (fun a =>
            set_url a
              (stored_url a
                 (default (google_url a)
                    (decode_success (new_decoderv1 (google_url a))))))
         articles).
Proof.
  induction articles as [|a articles IH]; [reflexivity|].
  cbn [resolve_urls List.map]. rewrite resolve_article_returns, IH.
  reflexivity.
Qed.

(** C5 (as the code has it).  Resolution never raises: the resolver returns
    for every link and [resolve_urls] returns for every list.  In the list
    returned each article is the input article with a new url.  When the
    decoder succeeds with a URL that contains the domain marker, the url is
    that URL normalized; when it succeeds with a URL without the marker,
    the url is the redirect link verbatim.  When the decoder fails or
    raises, the url is the redirect link verbatim unless the link itself
    contains the marker: then it is the link normalized. *)
Theorem resolve_urls_never_raises (articles : list article) :
  (forall link : pystr,
     exists real_url, resolve_google_news_url link = Returned real_url)
  /\ exists out : list article,
       resolve_urls articles = Returned out
       /\ Forall2
            (fun a a' =>
               a' = set_url a (url a')
               /\ url a'
                  = match decode_success (new_decoderv1 (google_url a)) with
                    | Some d =>
                        if contains s_domain d
                        then normalize_url d
                        else google_url a
                    | None =>
                        if contains s_domain (google_url a)
                        then normalize_url (google_url a)
                        else google_url a
                    end)
            articles out.
Proof.
  split.
  - intros link. eexists. apply resolve_google_news_url_returns.
  - eexists. split; [apply resolve_urls_returns|].
    induction articles as [|a articles IH]; [constructor|].
    cbn [List.map]. constructor; [|exact IH].
    split; [reflexivity|]. cbn [url set_url]. unfold stored_url.
    destruct (decode_success (new_decoderv1 (google_url a))); reflexivity.
Qed.

(** C2 (as the code has it).  After [resolve_urls] the url of an article
    is normalized when the resolver's result contains the domain marker:
    it is that result normalized, a fixed point of the normalizer.  In the
    fallback branch the url is the redirect link as the feed gave it, to
    which the normalizer is not applied. *)
Theorem resolve_urls_normalized (articles : list article) :
  exists out : list article,
    resolve_urls articles = Returned out
    /\ Forall2
         (fun a a' =>
            exists real_url,
              resolve_google_news_url (google_url a) = Returned real_url
              /\ if contains s_domain real_url
                 then url a' = normalize_url real_url
                      /\ normalize_url (url a') = url a'
                 else url a' = google_url a)
         articles out.
Proof.
  eexists. split; [apply resolve_urls_returns|].
  induction articles as [|a articles IH]; [constructor|].
  cbn [List.map]. constructor; [|exact IH].
  eexists. split; [apply resolve_google_news_url_returns|].
  cbn [url set_url]. unfold stored_url.
  destruct (contains s_domain _); [|reflexivity].
  split; [reflexivity|]. apply normal_fixed, normalize_url_normal.
Qed.

End Resolution.

(** C5, counterexample.  The decoder reports a failure for a link that
    contains the domain marker; the url stored is not the link but the
    link normalized: the query string is gone and the scheme is https. *)
Lemma resolve_urls_failure_not_verbatim :
  decode_success
    (new_decoderv1 (Runtime := Reference.runtime world_empty) link_direct)
  = None
  /\ resolve_urls (rt := Reference.runtime world_empty) [article_direct]
     = Returned
         [set_url article_direct
            (py "https://www.miamiherald.com/news/a1.html")]
  /\ py "https://www.miamiherald.com/news/a1.html"
     <> google_url article_direct.
Proof.
  split; [reflexivity|]. split; [vm_compute; reflexivity|].
  vm_compute. discriminate.
Qed.

(** C2, counterexample.  A redirect link with a query string that the
    decoder cannot decode: the url after resolution is the link itself,
    and normalizing it gives another string. *)
Lemma resolve_urls_fallback_not_normalized :
  resolve_urls (rt := Reference.runtime world_empty) [article_redirect]
  = Returned [set_url article_redirect link_redirect]
  /\ normalize_url (url (set_url article_redirect link_redirect))
     = py "https://news.google.com/rss/articles/CBMiK2h0dHBz"
  /\ normalize_url (url (set_url article_redirect link_redirect))
     <> url (set_url article_redirect link_redirect).
Proof.
  split; [vm_compute; reflexivity|]. split; [vm_compute; reflexivity|].
  vm_compute. discriminate.
Qed.

(** ** First occurrences *)

Section Firsts.

Context {A : Type} (key : A -> pystr).

Lemma firsts_fresh (seen : list pystr) (l : list A) :
  Forall (fun a => key a ∉ seen) (firsts key seen l).
Proof.
  revert seen. induction l as [|a l IH]; intros seen; simpl; [constructor|].
  destruct (bool_decide_reflect (key a ∈ seen)) as [Hin|Hout]; [apply IH|].
  constructor; [exact Hout|].
  eapply List.Forall_impl; [|apply (IH (key a :: seen))].
  intros b Hb Hin. apply Hb. right. exact Hin.
Qed.

Lemma firsts_NoDup (seen : list pystr) (l : list A) :
  NoDup (List.map key (firsts key seen l)).
Proof.
  revert seen. induction l as [|a l IH]; intros seen; simpl; [constructor|].
  destruct (bool_decide (key a ∈ seen)); [apply IH|].
  simpl. constructor; [|apply IH].
  intros Hin. apply list_elem_of_In, in_map_iff in Hin.
  destruct Hin as [b [Hk Hb]].
  pose proof (firsts_fresh (key a :: seen) l) as Hf.
  apply (proj1 (List.Forall_forall _ _) Hf b Hb).
  rewrite Hk. left.
Qed.

Lemma firsts_sublist (seen : list pystr) (l : list A) :
  sublist (firsts key seen l) l.
Proof.
  revert seen. induction l as [|a l IH]; intros seen; simpl; [constructor|].
  destruct (bool_decide (key a ∈ seen));
    [apply sublist_cons | apply sublist_skip]; apply IH.
Qed.

Lemma firsts_first_with (k : pystr) (seen : list pystr) (l : list A) :
  k ∉ seen -> first_with key k (firsts key seen l) = first_with key k l.
Proof.
  unfold first_with. revert seen.
  induction l as [|a l IH]; intros seen Hk; simpl; [reflexivity|].
  destruct (bool_decide_reflect (key a ∈ seen)) as [Hin|Hout].
  - destruct (bool_decide_reflect (key a = k)) as [E|_];
      [subst; contradiction | apply IH, Hk].
  - simpl. destruct (bool_decide_reflect (key a = k)) as [E|Hne];
      [reflexivity|].
    apply IH. intros Hin. apply elem_of_cons in Hin.
    destruct Hin as [E|Hin]; [congruence | contradiction].
Qed.

Lemma first_with_filter (k : pystr) (q : A -> bool) (l : list A) :
  (forall a, key a = k -> q a = true) ->
  first_with key k (List.filter q l) = first_with key k l.
Proof.
  unfold first_with. intros Hq. induction l as [|a l IH]; [reflexivity|].
  simpl. destruct (q a) eqn:E; simpl.
  - rewrite IH. reflexivity.
  - rewrite IH. destruct (bool_decide_reflect (key a = k)) as [Ek|_];
      [|reflexivity].
    apply Hq in Ek. congruence.
Qed.

End Firsts.

(** ** Dedup by url *)

Lemma dedup_step_firsts (l : list article) (seen : gmap pystr bool)
    (unique : list article) (keys : list pystr) :
  (forall k, is_Some (seen !! k) <-> k ∈ keys) ->
  snd (fold_left dedup_step l (seen, unique))
  = unique ++ firsts url_key keys l.
Proof.
  revert seen unique keys.
  induction l as [|a l IH]; intros seen unique keys Hinv;
    [simpl; rewrite app_nil_r; reflexivity|].
  cbn [fold_left firsts]. unfold dedup_step at 2. cbn [fst snd].
  fold (url_key a).
  destruct (seen !! url_key a) as [b|] eqn:E.
  - assert (Hin : url_key a ∈ keys) by (apply Hinv; rewrite E; eauto).
    rewrite (bool_decide_eq_true_2 _ Hin). apply IH, Hinv.
  - assert (Hout : url_key a ∉ keys).
    { intros Hin. apply Hinv in Hin. rewrite E in Hin.
      destruct Hin as [x Hx]. discriminate. }
    rewrite (bool_decide_eq_false_2 _ Hout).
    rewrite (IH _ _ (url_key a :: keys)).
    + rewrite <- app_assoc. reflexivity.
    + intros k. rewrite lookup_insert_is_Some, elem_of_cons, <- Hinv.
      destruct (decide (url_key a = k)) as [->|Hne]; [tauto|].
      split; [intros [H|[_ H]]; [congruence | right; exact H]|].
      intros [H|H]; [congruence | right; split; assumption].
Qed.

Lemma deduplicate_by_url_firsts (articles : list article) :
  deduplicate_by_url articles = firsts url_key [] articles.
Proof.
  unfold deduplicate_by_url.
  rewrite (dedup_step_firsts articles ∅ [] []); [reflexivity|].
  intros k. rewrite lookup_empty. split.
  - intros [x Hx]. discriminate.
  - intros Hin. inversion Hin.
Qed.

(** ** Query strings *)

Lemma split_head_app_sep (sep : N) (u q : pystr) :
  split_head sep (u ++ sep :: q) = split_head sep u.
Proof.
  induction u as [|c u IH]; simpl.
  - rewrite N.eqb_refl. reflexivity.
  - destruct (c =? sep); [reflexivity | rewrite IH; reflexivity].
Qed.

(** The substitution and the cut at the first question mark commute: the
    pattern has no question mark, so no match spans the cut. *)
Lemma split_head_re_sub_amp (s : pystr) :
  split_head c_question (re_sub_amp s)
  = re_sub_amp (split_head c_question s).
Proof.
  remember (length s) as n eqn:Hn. revert s Hn.
  induction n as [n IH] using lt_wf_ind. intros [|c s] Hn; [reflexivity|].
  rewrite re_sub_amp_cons.
  destruct (match_amp (c :: s)) as [r|] eqn:E.
  - pose proof (match_amp_length _ _ E) as Hlen.
    change (split_head c_question (s_https_www ++ re_sub_amp r))
      with (s_https_www ++ split_head c_question (re_sub_amp r)).
    rewrite (IH (length r)); [|lia|reflexivity].
    apply match_amp_Some in E. destruct E as [E|E]; rewrite E.
    + change (split_head c_question (s_amp1 ++ r))
        with (s_amp1 ++ split_head c_question r).
      destruct (s_amp1 ++ split_head c_question r) as [|x t] eqn:Ex;
        [discriminate|].
      rewrite re_sub_amp_cons, <- Ex.
      rewrite (proj2 (match_amp_Some _ _) (or_introl eq_refl)).
      reflexivity.
    + change (split_head c_question (s_amp2 ++ r))
        with (s_amp2 ++ split_head c_question r).
      destruct (s_amp2 ++ split_head c_question r) as [|x t] eqn:Ex;
        [discriminate|].
      rewrite re_sub_amp_cons, <- Ex.
      rewrite (proj2 (match_amp_Some _ _) (or_intror eq_refl)).
      reflexivity.
  - cbn [split_head]. destruct (c =? c_question) eqn:Ec; [reflexivity|].
    rewrite (IH (length s)); [|simpl in Hn; lia|reflexivity].
    rewrite re_sub_amp_cons.
    destruct (match_amp (c :: split_head c_question s)) as [r'|] eqn:E';
      [|reflexivity].
    exfalso. destruct (split_head_prefix c_question s) as [t Ht].
    apply match_amp_app with (q := t) in E'.
    cbn [app] in E'. rewrite <- Ht in E'. congruence.
Qed.

Lemma normalize_url_query (u q : pystr) :
  normalize_url (u ++ c_question :: q) = normalize_url u.
Proof.
  unfold normalize_url.
  assert (H : split_head c_question (re_sub_amp (u ++ c_question :: q))
              = split_head c_question (re_sub_amp u)).
  { rewrite !split_head_re_sub_amp, split_head_app_sep. reflexivity. }
  destruct u as [|c u].
  - cbn [app truthy negb]. cbn [app] in H. rewrite H.
    simp re_sub_amp. reflexivity.
  - cbn [app truthy negb]. cbn [app] in H. rewrite H. reflexivity.
Qed.

(** C7.  The dedup pass keeps, for each normalized url, the first article
    that has it and no other: the normalized urls of the output are
    pairwise distinct, the output is a sublist of the input, and for every
    key the first article of the output with that key is the first article
    of the input with that key.  Two urls that differ by a query string
    have the same normalized url, so of two such articles only the first
    is kept. *)
Theorem deduplicate_by_url_spec (articles : list article) :
  NoDup (List.map url_key (deduplicate_by_url articles))
  /\ sublist (deduplicate_by_url articles) articles
  /\ (forall k : pystr,
        first_with url_key k (deduplicate_by_url articles)
        = first_with url_key k articles)
  /\ (forall (a b : article) (q : pystr),
        url a = url b ++ c_question :: q ->
        url_key a = url_key b
        /\ deduplicate_by_url [a; b] = [a]
        /\ deduplicate_by_url [b; a] = [b]).
Proof.
  rewrite deduplicate_by_url_firsts.
  split; [apply firsts_NoDup|]. split; [apply firsts_sublist|].
  split; [intros k; apply firsts_first_with; intros H; inversion H|].
  intros a b q Hq.
  assert (Hk : url_key a = url_key b).
  { unfold url_key. rewrite Hq. apply normalize_url_query. }
  split; [exact Hk|]. rewrite !deduplicate_by_url_firsts.
  cbn [firsts]. rewrite Hk.
  rewrite !(bool_decide_eq_false_2 (url_key b ∈ []));
    try (intros H; inversion H).
  rewrite (bool_decide_eq_true_2 (url_key b ∈ [url_key b]));
    [split; reflexivity | left].
Qed.

(** ** Discovery *)

Lemma od_contains_spec {V : Type} (k : pystr) (d : odict V) :
  od_contains k d = true <-> k ∈ List.map fst d.
Proof.
  unfold od_contains. induction d as [|[k' v] d IH]; simpl.
  - split; [discriminate | intros H; inversion H].
  - rewrite orb_true_iff, IH, elem_of_cons, bool_decide_eq_true.
    split; intros [H|H]; auto.
Qed.

Lemma od_set_new {V : Type} (k : pystr) (v : V) (d : odict V) :
  od_contains k d = false -> od_set k v d = d ++ [(k, v)].
Proof.
  unfold od_contains. induction d as [|[k' v'] d IH]; simpl; [reflexivity|].
  rewrite orb_false_iff. intros [Hk Hd]. rewrite Hk, (IH Hd). reflexivity.
Qed.

Section Discovery.

Context {rt : Runtime}.

Lemma merge_article_firsts (l : list article) (d : odict article)
    (keys : list pystr) :
  (forall k, k ∈ keys <-> k ∈ List.map fst d) ->
  od_values (fold_left merge_article l d)
  = od_values d ++ firsts title_key keys (List.filter keyed l).
Proof.
  revert d keys. induction l as [|a l IH]; intros d keys Hinv;
    [simpl; rewrite app_nil_r; reflexivity|].
  cbn [fold_left List.filter]. unfold merge_article at 2, keyed at 1.
  cbv zeta. destruct (truthy (title_key a)); cbn [andb].
  - destruct (od_contains (title_key a) d) eqn:E; cbn [negb firsts].
    + assert (Hin : title_key a ∈ keys) by (apply Hinv, od_contains_spec, E).
      rewrite (bool_decide_eq_true_2 _ Hin). apply IH, Hinv.
    + assert (Hout : title_key a ∉ keys).
      { intros Hin. apply Hinv, od_contains_spec in Hin. congruence. }
      rewrite (bool_decide_eq_false_2 _ Hout), (od_set_new _ _ _ E).
      rewrite (IH _ (title_key a :: keys)).
      * unfold od_values. rewrite List.map_app, <- app_assoc. reflexivity.
      * intros k. rewrite List.map_app, elem_of_cons, elem_of_app, Hinv.
        cbn [List.map fst]. rewrite list_elem_of_singleton. tauto.
  - apply IH, Hinv.
Qed.

Lemma merge_query_fetched (queries : list pystr) (d : odict article) :
  fold_left merge_query queries d
  = fold_left merge_article (fetched queries) d.
Proof.
  revert d. induction queries as [|query queries IH]; intros d;
    [reflexivity|].
  cbn [fold_left fetched flat_map]. rewrite fold_left_app.
  apply IH.
Qed.

Lemma collect_articles_firsts (queries : list pystr) :
  collect_articles queries
  = firsts title_key [] (List.filter keyed (fetched queries)).
Proof.
  unfold collect_articles. rewrite merge_query_fetched.
  rewrite (merge_article_firsts _ [] []); [reflexivity|].
  intros k. reflexivity.
Qed.

Lemma collect_articles_spec (queries : list pystr) :
  NoDup (List.map title_key (collect_articles queries))
  /\ Forall (fun a => title_key a <> []) (collect_articles queries)
  /\ sublist (collect_articles queries) (fetched queries)
  /\ (forall k : pystr,
        k <> [] ->
        first_with title_key k (collect_articles queries)
        = first_with title_key k (fetched queries)).
Proof.
  rewrite collect_articles_firsts.
  assert (Hs : sublist (firsts title_key [] (List.filter keyed
                                               (fetched queries)))
                 (List.filter keyed (fetched queries)))
    by apply firsts_sublist.
  split; [apply firsts_NoDup|]. split; [|split].
  - apply List.Forall_forall. intros a Ha.
    apply list_elem_of_In in Ha. apply (fun H => elem_of_sublist _ _ _ H Hs) in Ha.
    apply list_elem_of_In, filter_In in Ha. destruct Ha as [_ Ha].
    unfold keyed in Ha. intros E. rewrite E in Ha. discriminate.
  - transitivity (List.filter keyed (fetched queries));
      [exact Hs | apply filter_sublist].
  - intros k Hk. rewrite firsts_first_with; [|intros H; inversion H].
    apply first_with_filter. intros a <-. unfold keyed.
    destruct (title_key a); [contradiction | reflexivity].
Qed.

(** C6.  Discovery never gives two articles whose titles are equal after
    lower-casing and trimming.  With the key of an article being
    [str_strip (str_lower (title a))]: the keys of the articles returned
    are pairwise distinct and none is empty, so two articles returned
    whose titles have the same key are one article; the articles returned
    are a sublist of those the queries return, in the order of the
    queries; for every non-empty key the article returned under that key
    is the first one fetched with it, with all its fields; and every
    fetched article with a non-empty key has its key among those
    returned. *)
Theorem collect_all_articles_unique :
  NoDup (List.map (fun a => str_strip (str_lower (title a)))
           collect_all_articles)
  /\ Forall (fun a => str_strip (str_lower (title a)) <> [])
       collect_all_articles
  /\ (forall a b : article,
        In a collect_all_articles -> In b collect_all_articles ->
        str_strip (str_lower (title a)) = str_strip (str_lower (title b)) ->
        a = b)
  /\ sublist collect_all_articles (fetched RSS_QUERIES)
  /\ (forall k : pystr,
        k <> [] ->
        List.find
          (fun a => bool_decide (str_strip (str_lower (title a)) = k))
          collect_all_articles
        = List.find
            (fun a => bool_decide (str_strip (str_lower (title a)) = k))
            (fetched RSS_QUERIES))
  /\ (forall a : article,
        In a (fetched RSS_QUERIES) ->
        str_strip (str_lower (title a)) <> [] ->
        exists b,
          In b collect_all_articles
          /\ str_strip (str_lower (title b))
             = str_strip (str_lower (title a))).
Proof.
  destruct (collect_articles_spec RSS_QUERIES) as [H1 [H2 [H3 H4]]].
  fold collect_all_articles in H1, H2, H3, H4.
  split; [exact H1|]. split; [exact H2|]. split; [|split; [exact H3|]].
  - intros a b Ha Hb E.
    apply list_elem_of_In, list_elem_of_lookup_1 in Ha, Hb.
    destruct Ha as [i Hi]. destruct Hb as [j Hj].
    assert (Hij : i = j).
    { apply (NoDup_lookup _ i j (str_strip (str_lower (title a))) H1).
      - rewrite list_lookup_fmap, Hi. reflexivity.
      - rewrite list_lookup_fmap, Hj. cbn. f_equal. symmetry. exact E. }
    subst j. congruence.
  - split; [exact H4|].
    intros a Ha Hk. specialize (H4 (title_key a) Hk).
    destruct (first_with title_key (title_key a) (fetched RSS_QUERIES))
      as [c|] eqn:E.
    + unfold first_with in H4. apply find_some in H4.
      destruct H4 as [Hb Hkb].
      exists c. split; [exact Hb|]. apply bool_decide_eq_true in Hkb.
      exact Hkb.
    + exfalso. unfold first_with in E.
      apply (find_none _ _ E a) in Ha.
      apply bool_decide_eq_false in Ha. apply Ha. reflexivity.
Qed.

End Discovery.

(** A pair of titles that differ by letter case and trailing white space:
    the two entries are fetched with the titles
    [Budget Vote Passes] and [budget vote passes] (the feed client has
    trimmed the second), their keys are equal, and only the first is
    returned by discovery. *)
Lemma collect_all_articles_unique_witness :
  List.map title (fetched (rt := Reference.runtime world_budget) RSS_QUERIES)
  = [py "Budget Vote Passes"; py "budget vote passes"]
  /\ List.map title
       (collect_all_articles (rt := Reference.runtime world_budget))
     = [py "Budget Vote Passes"]
  /\ NoDup
       (List.map
          (fun a =>
             str_strip
               (str_lower (Runtime := Reference.runtime world_budget)
                  (title a)))
          (collect_all_articles (rt := Reference.runtime world_budget))).
Proof.
  split; [vm_compute; reflexivity|]. split; [vm_compute; reflexivity|].
  apply (proj1 (collect_all_articles_unique
                  (rt := Reference.runtime world_budget))).
Defined.

(** ** The title pattern *)

Lemma re_sub_suffix_cons (c : N) (s : pystr) :
  re_sub_suffix (c :: s) =
  match match_suffix (c :: s) with
  | Some r => re_sub_suffix r
  | None => c :: re_sub_suffix s
  end.
Proof.
  simp re_sub_suffix.
  generalize (Logic.inspect (match_suffix (c :: s))).
  intros [[r|] E]; simp re_sub_suffix; rewrite E; reflexivity.
Qed.

Lemma re_spaces_then_sound {A : Type} (k : pystr -> option A) (s : pystr)
    (r : A) :
  re_spaces_then k s = Some r ->
  exists ws rest, s = ws ++ rest /\ blank ws /\ k rest = Some r.
Proof.
  revert r. induction s as [|c s IH]; intros r H; simpl in H.
  - exists [], []. repeat split; [constructor | exact H].
  - destruct (is_space c) eqn:Ec.
    + destruct (re_spaces_then k s) as [r'|] eqn:E.
      * destruct (IH r' eq_refl) as [ws [rest [Hs [Hws Hk]]]].
        exists (c :: ws), rest. split; [simpl; congruence|].
        split; [constructor; assumption | congruence].
      * exists [], (c :: s). repeat split; [constructor | exact H].
    + exists [], (c :: s). repeat split; [constructor | exact H].
Qed.

Lemma re_spaces_then_here {A : Type} (k : pystr -> option A) (s : pystr) :
  is_Some (k s) -> is_Some (re_spaces_then k s).
Proof.
  intros H. destruct s as [|c s]; [exact H|]. simpl.
  destruct (is_space c); [|exact H].
  destruct (re_spaces_then k s); [eauto | exact H].
Qed.

Lemma re_spaces_then_complete {A : Type} (k : pystr -> option A)
    (ws rest : pystr) :
  blank ws -> is_Some (k rest) -> is_Some (re_spaces_then k (ws ++ rest)).
Proof.
  intros Hws Hk. induction Hws as [|c ws Hc Hws IH];
    [apply re_spaces_then_here, Hk|].
  simpl. rewrite Hc. destruct IH as [r ->]. eauto.
Qed.

Lemma re_dollar_blank (s r : pystr) :
  re_spaces_then re_dollar s = Some r -> blank s /\ r = [].
Proof.
  revert r. induction s as [|c s IH]; intros r H; simpl in H.
  - inversion H. split; [constructor | reflexivity].
  - assert (Hd : forall x, re_dollar (c :: s) = Some x ->
                           s = [] /\ is_space c = true).
    { intros x Hx. destruct s; [|discriminate]. simpl in Hx.
      destruct (N.eqb_spec c 10) as [->|_]; [|discriminate].
      split; reflexivity. }
    destruct (is_space c) eqn:Ec.
    + destruct (re_spaces_then re_dollar s) as [r'|] eqn:E.
      * destruct (IH r' eq_refl) as [Hs Hr]. split; [|congruence].
        constructor; assumption.
      * destruct (Hd r H) as [-> _]. discriminate.
    + destruct (Hd r H) as [_ Hc]. discriminate.
Qed.

Lemma match_suffix_sound (s r : pystr) :
  match_suffix s = Some r -> publisher_suffix s /\ r = [].
Proof.
  unfold match_suffix. intros H.
  apply re_spaces_then_sound in H.
  destruct H as [ws1 [s1 [-> [H1 H]]]].
  destruct s1 as [|d s2]; [discriminate|].
  destruct (is_dash d) eqn:Ed; [|discriminate].
  apply re_spaces_then_sound in H.
  destruct H as [ws2 [s3 [-> [H2 H]]]].
  destruct (strip_prefix s_miami_herald s3) as [s4|] eqn:E; [|discriminate].
  apply strip_prefix_Some in E. subst s3.
  apply re_dollar_blank in H. destruct H as [H3 ->].
  split; [|reflexivity].
  exists ws1, d, ws2, s4. repeat split; assumption.
Qed.

Lemma match_suffix_complete (s : pystr) :
  publisher_suffix s -> match_suffix s = Some [].
Proof.
  intros [ws1 [d [ws2 [ws3 [-> [H1 [Hd [H2 H3]]]]]]]].
  assert (H : is_Some (match_suffix
                         (ws1 ++ d :: ws2 ++ s_miami_herald ++ ws3))).
  { unfold match_suffix. apply re_spaces_then_complete; [exact H1|].
    rewrite Hd. apply re_spaces_then_complete; [exact H2|].
    rewrite (proj2 (strip_prefix_Some _ _ _) eq_refl).
    rewrite <- (app_nil_r ws3).
    apply re_spaces_then_complete; [exact H3 | simpl; eauto]. }
  destruct H as [r H]. rewrite H.
  apply match_suffix_sound in H. destruct H as [_ ->]. reflexivity.
Qed.

Lemma match_suffix_none (s : pystr) :
  ~ publisher_suffix s -> match_suffix s = None.
Proof.
  intros H. destruct (match_suffix s) as [r|] eqn:E; [|reflexivity].
  apply match_suffix_sound in E. tauto.
Qed.

(** Without a match anywhere the substitution changes nothing. *)
Lemma re_sub_suffix_fixed (s : pystr) :
  (forall p t, s = p ++ t -> ~ publisher_suffix t) -> re_sub_suffix s = s.
Proof.
  induction s as [|c s IH]; intros H; [reflexivity|].
  rewrite re_sub_suffix_cons, match_suffix_none; [|apply (H []); reflexivity].
  rewrite IH; [reflexivity|].
  intros p t ->. apply (H (c :: p)). reflexivity.
Qed.

(** The substitution cuts at the first position where the pattern
    matches. *)
Lemma re_sub_suffix_cut (q t : pystr) :
  publisher_suffix t ->
  (forall q0 q', q = q0 ++ q' -> q' <> [] -> ~ publisher_suffix (q' ++ t)) ->
  re_sub_suffix (q ++ t) = q.
Proof.
  intros Ht. induction q as [|c q IH]; intros H.
  - cbn [app]. destruct t as [|c t].
    + exfalso. destruct Ht as [ws1 [d [ws2 [ws3 [E _]]]]].
      destruct ws1; discriminate.
    + rewrite re_sub_suffix_cons, (match_suffix_complete _ Ht).
      reflexivity.
  - cbn [app]. rewrite re_sub_suffix_cons, match_suffix_none.
    + rewrite IH; [reflexivity|].
      intros q0 q' ->. apply (H (c :: q0)). reflexivity.
    + apply (H [] (c :: q)); [reflexivity | discriminate].
Qed.

(** ** The stored title *)

Lemma blank_span_unique (ws ws' : pystr) (a a' : N) (r r' : pystr) :
  blank ws -> blank ws' -> is_space a = false -> is_space a' = false ->
  ws ++ a :: r = ws' ++ a' :: r' -> ws = ws' /\ a = a' /\ r = r'.
Proof.
  intros Hws. revert ws'.
  induction Hws as [|c ws Hc Hws IH]; intros ws' Hws' Ha Ha' E.
  - destruct Hws' as [|c' ws' Hc' Hws'].
    + inversion E. repeat split; reflexivity.
    + inversion E. congruence.
  - destruct Hws' as [|c' ws' Hc' Hws'].
    + inversion E. congruence.
    + inversion E. subst c'.
      destruct (IH ws' Hws' Ha Ha') as [-> [-> ->]]; [assumption|].
      repeat split; reflexivity.
Qed.

Lemma blank_tail_unique (r r' : pystr) (a a' : N) (ws ws' : pystr) :
  blank ws -> blank ws' -> is_space a = false -> is_space a' = false ->
  r ++ a :: ws = r' ++ a' :: ws' -> r = r' /\ a = a' /\ ws = ws'.
Proof.
  intros Hws Hws' Ha Ha' E. apply (f_equal (@rev N)) in E.
  rewrite !rev_app_distr in E. cbn [rev] in E. rewrite <- !app_assoc in E.
  cbn [app] in E.
  apply blank_span_unique in E; try assumption;
    try (apply Forall_rev; assumption).
  destruct E as [E1 [E2 E3]].
  apply (f_equal (@rev N)) in E1, E3. rewrite !rev_involutive in E1, E3.
  repeat split; assumption.
Qed.

Lemma is_dash_not_space (d : N) : is_dash d = true -> is_space d = false.
Proof.
  unfold is_dash. rewrite !orb_true_iff, !N.eqb_eq.
  intros [[->| ->]| ->]; reflexivity.
Qed.

(** Two matches that end a string start at the same dash. *)
Lemma publisher_suffix_unique (x x' : pystr) (d d' : N)
    (ws2 ws2' ws3 ws3' : pystr) :
  is_dash d = true -> is_dash d' = true ->
  blank ws2 -> blank ws2' -> blank ws3 -> blank ws3' ->
  x ++ d :: ws2 ++ s_miami_herald ++ ws3
  = x' ++ d' :: ws2' ++ s_miami_herald ++ ws3' ->
  x = x'.
Proof.
  intros Hd Hd' H2 H2' H3 H3' E.
  change s_miami_herald with (s_miami_heral ++ [100]) in E.
  assert (E1 : (x ++ d :: ws2 ++ s_miami_heral) ++ 100 :: ws3
               = (x' ++ d' :: ws2' ++ s_miami_heral) ++ 100 :: ws3').
  { rewrite <- !app_assoc. cbn [app]. rewrite <- !app_assoc in E.
    cbn [app] in E. rewrite <- !app_assoc. exact E. }
  apply blank_tail_unique in E1; try assumption; try reflexivity.
  destruct E1 as [E1 _].
  assert (E2 : (x ++ d :: ws2) ++ s_miami_heral
               = (x' ++ d' :: ws2') ++ s_miami_heral).
  { rewrite <- !app_assoc. exact E1. }
  apply app_inv_tail in E2.
  apply blank_tail_unique in E2; try assumption;
    try (apply is_dash_not_space; assumption).
  tauto.
Qed.

Lemma rstrip_by_split (strip : N -> bool) (s : pystr) :
  exists w, s = rstrip_by strip s ++ w /\ Forall (fun c => strip c = true) w.
Proof.
  induction s as [|c s [w [Hs Hw]]]; [exists []; split; [reflexivity|constructor]|].
  cbn [rstrip_by]. destruct (rstrip_by strip s) as [|d r].
  - destruct (strip c) eqn:Ec.
    + exists (c :: s). split; [reflexivity|].
      constructor; [exact Ec|]. cbn [app] in Hs. rewrite Hs. exact Hw.
    + exists w. split; [cbn [app] in *; congruence | exact Hw].
  - exists w. split; [cbn [app] in *; congruence | exact Hw].
Qed.

Lemma rstrip_by_all (strip : N -> bool) (w : pystr) :
  Forall (fun c => strip c = true) w -> rstrip_by strip w = [].
Proof.
  induction 1 as [|c w Hc Hw IH]; [reflexivity|].
  cbn [rstrip_by]. rewrite IH, Hc. reflexivity.
Qed.

Lemma rstrip_by_app_strip (strip : N -> bool) (p w : pystr) :
  Forall (fun c => strip c = true) w ->
  rstrip_by strip (p ++ w) = rstrip_by strip p.
Proof.
  intros Hw. induction p as [|c p IH]; [apply rstrip_by_all, Hw|].
  cbn [app rstrip_by]. rewrite IH. reflexivity.
Qed.

Lemma str_strip_rstrip (s : pystr) :
  str_strip (rstrip_by is_space s) = str_strip s.
Proof. unfold str_strip. rewrite rstrip_by_idem. reflexivity. Qed.

Lemma blank_last (q0 q' : pystr) :
  q' <> [] -> blank q' -> is_space (List.last (q0 ++ q') 0) = true.
Proof.
  intros Hne Hq. destruct (exists_last Hne) as [q1 [c E]]. subst q'.
  rewrite app_assoc, last_last.
  apply Forall_app in Hq. destruct Hq as [_ Hc]. inversion Hc. assumption.
Qed.

(** The substitution removes the suffix and the white space before it. *)
Lemma re_sub_suffix_publisher (p ws1 : pystr) (d : N) (ws2 ws3 : pystr) :
  blank ws1 -> is_dash d = true -> blank ws2 -> blank ws3 ->
  re_sub_suffix (p ++ ws1 ++ d :: ws2 ++ s_miami_herald ++ ws3)
  = rstrip_by is_space p.
Proof.
  intros H1 Hd H2 H3.
  destruct (rstrip_by_split is_space p) as [w [Hp Hw]].
  set (q := rstrip_by is_space p) in *.
  assert (Hq : q = [] \/ is_space (List.last q 0) = false).
  { apply rstrip_by_fixed. apply rstrip_by_idem. }
  rewrite Hp at 1. rewrite <- app_assoc.
  assert (Hb : blank (w ++ ws1)) by (apply Forall_app; split; assumption).
  replace (w ++ ws1 ++ d :: ws2 ++ s_miami_herald ++ ws3)
    with ((w ++ ws1) ++ d :: ws2 ++ s_miami_herald ++ ws3)
    by (rewrite <- app_assoc; reflexivity).
  apply re_sub_suffix_cut.
  - exists (w ++ ws1), d, ws2, ws3. repeat split; assumption.
  - intros q0 q' Eq Hne [ws1' [d' [ws2' [ws3' [E [H1' [Hd' [H2' H3']]]]]]]].
    rewrite app_assoc in E.
    apply publisher_suffix_unique in E; try assumption.
    assert (Hq' : blank q').
    { rewrite <- E in H1'. apply Forall_app in H1'. tauto. }
    pose proof (blank_last q0 q' Hne Hq') as Hl. rewrite <- Eq in Hl.
    destruct Hq as [Hq|Hq]; [|congruence].
    rewrite Hq in Eq. destruct q0; [|discriminate].
    cbn [app] in Eq. congruence.
Qed.

(** C9.  The stored title is the headline without its trailing publisher
    suffix and without surrounding white space.  For a headline that ends
    with a dash (hyphen, en dash or em dash) followed by the publisher's
    name, with any white space around the dash and at the end, the stored
    title is what precedes the suffix, trimmed; for a headline that does
    not end this way it is the headline trimmed.  The headline
    [Storm Hits Florida - Miami Herald] gives [Storm Hits Florida], and
    every feed entry's article carries the stored title of its
    headline. *)
Theorem stored_title_strips_suffix :
  (forall (p ws1 : pystr) (d : N) (ws2 ws3 : pystr),
     blank ws1 -> is_dash d = true -> blank ws2 -> blank ws3 ->
     stored_title (p ++ ws1 ++ d :: ws2 ++ s_miami_herald ++ ws3)
     = str_strip p)
  /\ (forall h : pystr,
        (forall p t, h = p ++ t -> ~ publisher_suffix t) ->
        stored_title h = str_strip h)
  /\ stored_title (py "Storm Hits Florida - Miami Herald")
     = py "Storm Hits Florida"
  /\ (forall e : feed_entry,
        title (article_of_entry e)
        = stored_title (default [] (entry_title e))).
Proof.
  split; [|split; [|split]].
  - intros p ws1 d ws2 ws3 H1 Hd H2 H3. unfold stored_title.
    rewrite re_sub_suffix_publisher by assumption.
    apply str_strip_rstrip.
  - intros h H. unfold stored_title.
    rewrite re_sub_suffix_fixed by exact H. reflexivity.
  - change (py "Storm Hits Florida - Miami Herald")
      with (py "Storm Hits Florida" ++ [32] ++ 45 :: [32]
            ++ s_miami_herald ++ []).
    unfold stored_title. rewrite re_sub_suffix_publisher.
    + reflexivity.
    + repeat constructor.
    + reflexivity.
    + repeat constructor.
    + constructor.
  - intros e. reflexivity.
Qed.

(* ===================================================================== *)
(** * Part III: further properties of the pipeline                        *)
(* ===================================================================== *)

(** ** More on the URL normalizer *)

Lemma re_sub_amp_not_h (c : N) (s : pystr) :
  c <> 104 -> re_sub_amp (c :: s) = c :: re_sub_amp s.
Proof.
  intros Hc. rewrite re_sub_amp_cons.
  assert (E : match_amp (c :: s) = None).
  { unfold match_amp. cbn [strip_prefix s_http].
    destruct (N.eqb_spec 104 c) as [H|_]; [congruence | reflexivity]. }
  rewrite E. reflexivity.
Qed.

Lemma re_sub_amp_www (r : pystr) :
  re_sub_amp (s_https_www ++ r) = s_https_www ++ re_sub_amp r.
Proof.
  unfold s_https_www. cbn [app]. rewrite re_sub_amp_cons.
  change (match_amp (104 :: 116 :: 116 :: 112 :: 115 :: 58 :: 47 :: 47
                     :: 119 :: 119 :: 119 :: 46 :: r)) with (@None pystr).
  rewrite !re_sub_amp_not_h by (intros H; discriminate H).
  reflexivity.
Qed.

Lemma re_sub_amp_amp1 (r : pystr) :
  re_sub_amp (s_amp1 ++ r) = s_https_www ++ re_sub_amp r.
Proof.
  destruct (s_amp1 ++ r) as [|c s] eqn:E; [discriminate|].
  rewrite re_sub_amp_cons, <- E.
  rewrite (proj2 (match_amp_Some _ _) (or_introl eq_refl)). reflexivity.
Qed.

Lemma re_sub_amp_amp2 (r : pystr) :
  re_sub_amp (s_amp2 ++ r) = s_https_www ++ re_sub_amp r.
Proof.
  destruct (s_amp2 ++ r) as [|c s] eqn:E; [discriminate|].
  rewrite re_sub_amp_cons, <- E.
  rewrite (proj2 (match_amp_Some _ _) (or_intror eq_refl)). reflexivity.
Qed.

(** [normalize_url] of a non-empty string depends only on what the
    substitution makes of it. *)
Lemma normalize_url_re_sub_amp (u v : pystr) :
  truthy u = true -> truthy v = true -> re_sub_amp u = re_sub_amp v ->
  normalize_url u = normalize_url v.
Proof.
  intros Hu Hv E. unfold normalize_url. rewrite Hu, Hv, E. reflexivity.
Qed.

(** X1.  What the normalizer returns has no question mark and no hash,
    does not end with a slash, does not start with [http://], and has no
    match of the AMP pattern left. *)
Theorem normalize_url_shape (u : pystr) :
  ~ In c_question (normalize_url u)
  /\ ~ In c_hash (normalize_url u)
  /\ (normalize_url u = [] \/ List.last (normalize_url u) 0 <> c_slash)
  /\ startswith s_http_scheme (normalize_url u) = false
  /\ has_amp (normalize_url u) = false.
Proof.
  destruct (normalize_url_normal u) as [Ha Hq Hh Hs Hp].
  split; [exact Hq|]. split; [exact Hh|]. split; [|split; assumption].
  apply rstrip_by_fixed in Hs. destruct Hs as [Hs|Hs]; [left; exact Hs|].
  right. intros E. rewrite E, N.eqb_refl in Hs. discriminate.
Qed.

(** X2.  An AMP address and the [www] address over https normalize to the
    same URL, whichever scheme the AMP address has. *)
Theorem normalize_url_amp (r : pystr) :
  normalize_url (s_amp1 ++ r) = normalize_url (s_https_www ++ r)
  /\ normalize_url (s_amp2 ++ r) = normalize_url (s_https_www ++ r).
Proof.
  split; apply normalize_url_re_sub_amp; try reflexivity.
  - rewrite re_sub_amp_amp1, re_sub_amp_www. reflexivity.
  - rewrite re_sub_amp_amp2, re_sub_amp_www. reflexivity.
Qed.

Lemma split_head_app_free (sep : N) (p x : pystr) :
  ~ In sep p -> split_head sep (p ++ x) = p ++ split_head sep x.
Proof.
  induction p as [|c p IH]; intros H; [reflexivity|].
  cbn [app split_head]. destruct (N.eqb_spec c sep) as [E|_].
  - exfalso. apply H. left. exact E.
  - rewrite IH; [reflexivity|]. intros Hin. apply H. right. exact Hin.
Qed.

Lemma split_head_app_in (sep : N) (x w : pystr) :
  In sep x -> split_head sep (x ++ w) = split_head sep x.
Proof.
  induction x as [|c x IH]; intros H; [destruct H|].
  cbn [app split_head]. destruct (N.eqb_spec c sep) as [E|Hne];
    [reflexivity|].
  rewrite IH; [reflexivity|]. destruct H as [H|H]; [congruence | exact H].
Qed.

(** The substitution and the cut at the first hash commute. *)
Lemma split_head_hash_re_sub_amp (s : pystr) :
  split_head c_hash (re_sub_amp s) = re_sub_amp (split_head c_hash s).
Proof.
  remember (length s) as n eqn:Hn. revert s Hn.
  induction n as [n IH] using lt_wf_ind. intros [|c s] Hn; [reflexivity|].
  rewrite re_sub_amp_cons.
  destruct (match_amp (c :: s)) as [r|] eqn:E.
  - pose proof (match_amp_length _ _ E) as Hlen.
    change (split_head c_hash (s_https_www ++ re_sub_amp r))
      with (s_https_www ++ split_head c_hash (re_sub_amp r)).
    rewrite (IH (length r)); [|lia|reflexivity].
    apply match_amp_Some in E. destruct E as [E|E]; rewrite E.
    + change (split_head c_hash (s_amp1 ++ r))
        with (s_amp1 ++ split_head c_hash r).
      rewrite re_sub_amp_amp1. reflexivity.
    + change (split_head c_hash (s_amp2 ++ r))
        with (s_amp2 ++ split_head c_hash r).
      rewrite re_sub_amp_amp2. reflexivity.
  - cbn [split_head]. destruct (c =? c_hash) eqn:Ec; [reflexivity|].
    rewrite (IH (length s)); [|simpl in Hn; lia|reflexivity].
    rewrite re_sub_amp_cons.
    destruct (match_amp (c :: split_head c_hash s)) as [r'|] eqn:E';
      [|reflexivity].
    exfalso. destruct (split_head_prefix c_hash s) as [t Ht].
    apply match_amp_app with (q := t) in E'.
    cbn [app] in E'. rewrite <- Ht in E'. congruence.
Qed.

Lemma split_head_fragment (u f : pystr) :
  split_head c_hash (split_head c_question (u ++ c_hash :: f))
  = split_head c_hash (split_head c_question u).
Proof.
  induction u as [|c u IH]; [reflexivity|].
  cbn [app split_head]. destruct (c =? c_question); [reflexivity|].
  cbn [split_head]. destruct (c =? c_hash); [reflexivity|].
  rewrite IH. reflexivity.
Qed.

(** X3.  A fragment does not count: a URL followed by a hash and any text
    normalizes as the URL alone. *)
Theorem normalize_url_fragment (u f : pystr) :
  normalize_url (u ++ c_hash :: f) = normalize_url u.
Proof.
  unfold normalize_url.
  assert (H : split_head c_hash
                (split_head c_question (re_sub_amp (u ++ c_hash :: f)))
              = split_head c_hash (split_head c_question (re_sub_amp u))).
  { rewrite !split_head_re_sub_amp, !split_head_hash_re_sub_amp,
      split_head_fragment. reflexivity. }
  destruct u as [|c u].
  - cbn [app truthy negb]. cbn [app] in H. rewrite H.
    simp re_sub_amp. reflexivity.
  - cbn [app truthy negb]. cbn [app] in H. rewrite H. reflexivity.
Qed.

(** A slash added at the end cannot complete a match: the pattern ends
    with a dot. *)
Lemma re_sub_amp_slash (u : pystr) :
  re_sub_amp (u ++ [c_slash]) = re_sub_amp u ++ [c_slash].
Proof.
  remember (length u) as n eqn:Hn. revert u Hn.
  induction n as [n IH] using lt_wf_ind. intros [|c s] Hn.
  - cbn [app]. rewrite re_sub_amp_not_h by (intros H; discriminate H).
    reflexivity.
  - cbn [app]. rewrite !re_sub_amp_cons.
    destruct (match_amp (c :: s)) as [r|] eqn:E.
    + pose proof (match_amp_length _ _ E) as Hlen.
      apply match_amp_app with (q := [c_slash]) in E. cbn [app] in E.
      rewrite E, (IH (length r)); [|lia|reflexivity].
      rewrite app_assoc. reflexivity.
    + destruct (match_amp (c :: s ++ [c_slash])) as [r'|] eqn:E'.
      * exfalso. apply match_amp_Some in E'.
        destruct r' as [|x r'' _] using rev_ind.
        -- rewrite !app_nil_r in E'.
           change (c :: s ++ [c_slash]) with ((c :: s) ++ [c_slash]) in E'.
           destruct E' as [E'|E'].
           ++ change s_amp1 with (removelast s_amp1 ++ [46]) in E'.
              apply app_inj_tail in E'. destruct E' as [_ E'].
              discriminate E'.
           ++ change s_amp2 with (removelast s_amp2 ++ [46]) in E'.
              apply app_inj_tail in E'. destruct E' as [_ E'].
              discriminate E'.
        -- assert (Hs : c :: s = s_amp1 ++ r'' \/ c :: s = s_amp2 ++ r'').
           { destruct E' as [E'|E']; [left|right];
               change (c :: s ++ [c_slash]) with ((c :: s) ++ [c_slash])
                 in E';
               rewrite app_assoc in E'; apply app_inj_tail in E'; tauto. }
           apply match_amp_Some in Hs. congruence.
      * rewrite (IH (length s)); [|simpl in Hn; lia|reflexivity].
        reflexivity.
Qed.

(** X4.  A trailing slash does not count: a URL followed by a slash
    normalizes as the URL alone. *)
Theorem normalize_url_trailing_slash (u : pystr) :
  normalize_url (u ++ [c_slash]) = normalize_url u.
Proof.
  destruct u as [|c u]; [reflexivity|].
  unfold normalize_url. cbn [app truthy negb].
  change (c :: u ++ [c_slash]) with ((c :: u) ++ [c_slash]).
  rewrite re_sub_amp_slash. set (v := re_sub_amp (c :: u)).
  assert (H : rstrip_by (N.eqb c_slash)
                (split_head c_hash (split_head c_question (v ++ [c_slash])))
              = rstrip_by (N.eqb c_slash)
                  (split_head c_hash (split_head c_question v))).
  { destruct (in_dec N.eq_dec c_question v) as [Hq|Hq].
    - rewrite split_head_app_in by exact Hq. reflexivity.
    - rewrite (split_head_app_free _ _ _ Hq), (split_head_fixed _ _ Hq).
      change (split_head c_question [c_slash]) with [c_slash].
      destruct (in_dec N.eq_dec c_hash v) as [Hh|Hh].
      + rewrite split_head_app_in by exact Hh. reflexivity.
      + rewrite (split_head_app_free _ _ _ Hh), (split_head_fixed _ _ Hh).
        change (split_head c_hash [c_slash]) with [c_slash].
        apply rstrip_by_app_strip. constructor; [reflexivity | constructor]. }
  rewrite H. reflexivity.
Qed.

(** ** More on trimming and date parsing *)

Lemma rstrip_by_app (strip : N -> bool) (a b : pystr) :
  rstrip_by strip (a ++ b)
  = match rstrip_by strip b with
    | [] => rstrip_by strip a
    | x :: r => a ++ x :: r
    end.
Proof.
  induction a as [|c a IH].
  - cbn [app]. destruct (rstrip_by strip b); reflexivity.
  - cbn [app rstrip_by]. rewrite IH.
    destruct (rstrip_by strip b) as [|x r]; [reflexivity|].
    destruct a; reflexivity.
Qed.

Lemma lstrip_by_app_strip (strip : N -> bool) (w s : pystr) :
  Forall (fun c => strip c = true) w ->
  lstrip_by strip (w ++ s) = lstrip_by strip s.
Proof.
  induction 1 as [|c w Hc Hw IH]; [reflexivity|].
  cbn [app lstrip_by]. rewrite Hc. exact IH.
Qed.

Lemma lstrip_by_idem (strip : N -> bool) (s : pystr) :
  lstrip_by strip (lstrip_by strip s) = lstrip_by strip s.
Proof.
  induction s as [|c s IH]; [reflexivity|].
  cbn [lstrip_by]. destruct (strip c) eqn:Ec; [exact IH|].
  cbn [lstrip_by]. rewrite Ec. reflexivity.
Qed.

(** Stripping on the left keeps a string that [rstrip] leaves alone one
    that [rstrip] leaves alone. *)
Lemma rstrip_by_lstrip_by (strip : N -> bool) (t : pystr) :
  rstrip_by strip t = t ->
  rstrip_by strip (lstrip_by strip t) = lstrip_by strip t.
Proof.
  induction t as [|c t IH]; intros H; [reflexivity|].
  cbn [lstrip_by]. destruct (strip c) eqn:Ec; [|exact H].
  apply IH. cbn [rstrip_by] in H. rewrite Ec in H.
  destruct (rstrip_by strip t) as [|x r]; [discriminate|].
  inversion H. congruence.
Qed.

Lemma str_strip_idem (s : pystr) : str_strip (str_strip s) = str_strip s.
Proof.
  unfold str_strip.
  rewrite (rstrip_by_lstrip_by is_space _ (rstrip_by_idem is_space s)).
  apply lstrip_by_idem.
Qed.

Lemma str_strip_blank_around (ws1 s ws2 : pystr) :
  blank ws1 -> blank ws2 -> str_strip (ws1 ++ s ++ ws2) = str_strip s.
Proof.
  intros H1 H2. unfold str_strip.
  rewrite app_assoc, (rstrip_by_app_strip is_space _ _ H2).
  rewrite rstrip_by_app, (rstrip_by_all is_space _ H1).
  destruct (rstrip_by is_space s) as [|x r]; [reflexivity|].
  apply lstrip_by_app_strip, H1.
Qed.

Lemma truthy_app (a s b : pystr) :
  truthy s = true -> truthy (a ++ s ++ b) = true.
Proof.
  destruct s as [|c s]; [discriminate|]. intros _.
  destruct a; reflexivity.
Qed.

(** X5.  [parse_date] does not see white space around a date string: a
    non-empty string parses the same with any white space before and
    after it. *)
Theorem parse_date_ignores_blanks {rt : Runtime} (ws1 s ws2 : pystr) :
  truthy s = true -> blank ws1 -> blank ws2 ->
  parse_date (ws1 ++ s ++ ws2) = parse_date s.
Proof.
  intros Hs H1 H2. unfold parse_date.
  rewrite (truthy_app ws1 s ws2 Hs), Hs. cbn [negb].
  rewrite (str_strip_blank_around ws1 s ws2 H1 H2). reflexivity.
Qed.

Lemma parse_date_ignores_blanks_witness :
  parse_date (rt := Reference.runtime world_empty)
    ([32] ++ py "2024-03-07" ++ [10])
  = parse_date (rt := Reference.runtime world_empty) (py "2024-03-07").
Proof.
  apply (parse_date_ignores_blanks (rt := Reference.runtime world_empty));
    [reflexivity | repeat constructor | repeat constructor].
Defined.

(** X6.  The date filter is idempotent and works article by article:
    filtering twice changes nothing more, and the filter of a list put
    together from two lists is the two filtered lists put together. *)
Theorem filter_by_date_compose {rt : Runtime} (l1 l2 : list article) :
  filter_by_date (filter_by_date l1) = filter_by_date l1
  /\ filter_by_date (l1 ++ l2) = filter_by_date l1 ++ filter_by_date l2.
Proof.
  rewrite !filter_by_date_filter. split.
  - apply filter_refine. intros a Ha. exact Ha.
  - apply List.filter_app.
Qed.

(** ** More on the dedup pass *)

Lemma firsts_fixed {A : Type} (key : A -> pystr) (seen : list pystr)
    (l : list A) :
  NoDup (List.map key l) ->
  Forall (fun a => key a ∉ seen) l ->
  firsts key seen l = l.
Proof.
  revert seen. induction l as [|a l IH]; intros seen Hnd Hf; [reflexivity|].
  cbn [firsts]. inversion Hnd as [|k ks Hk Hks]; subst.
  inversion Hf as [|b bs Hb Hbs]; subst.
  rewrite (bool_decide_eq_false_2 _ Hb). f_equal.
  apply IH; [exact Hks|].
  apply List.Forall_forall. intros b Hin Hseen.
  apply elem_of_cons in Hseen. destruct Hseen as [E|Hseen].
  - apply Hk. rewrite <- E. apply list_elem_of_In, in_map, Hin.
  - apply (proj1 (List.Forall_forall _ _) Hbs b Hin Hseen).
Qed.

Lemma first_with_Some_In {A : Type} (key : A -> pystr) (k : pystr)
    (l : list A) :
  In k (List.map key l) <-> exists a, first_with key k l = Some a.
Proof.
  unfold first_with. split.
  - intros H. apply in_map_iff in H. destruct H as [a [Hk Ha]].
    destruct (List.find (fun a => bool_decide (key a = k)) l) as [b|] eqn:E;
      [eauto|].
    apply (find_none _ _ E a) in Ha. apply bool_decide_eq_false in Ha.
    contradiction.
  - intros [a H]. apply find_some in H. destruct H as [Ha Hk].
    apply bool_decide_eq_true in Hk. apply in_map_iff. eauto.
Qed.

(** X7.  The dedup pass leaves a list alone exactly when the normalized
    urls of its articles are pairwise distinct. *)
Theorem deduplicate_by_url_fixed (articles : list article) :
  deduplicate_by_url articles = articles
  <-> NoDup (List.map url_key articles).
Proof.
  rewrite deduplicate_by_url_firsts. split.
  - intros E. rewrite <- E. apply firsts_NoDup.
  - intros H. apply firsts_fixed; [exact H|].
    apply List.Forall_forall. intros a _ Hin. inversion Hin.
Qed.

(** X8.  The dedup pass is idempotent: a second pass removes nothing. *)
Theorem deduplicate_by_url_idempotent (articles : list article) :
  deduplicate_by_url (deduplicate_by_url articles)
  = deduplicate_by_url articles.
Proof.
  rewrite !deduplicate_by_url_firsts. apply firsts_fixed.
  - apply firsts_NoDup.
  - apply List.Forall_forall. intros a _ Hin. inversion Hin.
Qed.

(** X9.  The dedup pass loses no url and never grows the list: the
    normalized urls of the output are those of the input, and the output
    is not longer than the input. *)
Theorem deduplicate_by_url_keys (articles : list article) :
  (forall k : pystr,
     In k (List.map url_key (deduplicate_by_url articles))
     <-> In k (List.map url_key articles))
  /\ (length (deduplicate_by_url articles) <= length articles)%nat.
Proof.
  rewrite deduplicate_by_url_firsts. split.
  - intros k. rewrite !first_with_Some_In, firsts_first_with; [reflexivity|].
    intros Hin. inversion Hin.
  - apply sublist_length, firsts_sublist.
Qed.

(** ** More on the exporter *)

Lemma sorted_reverse_fixed {A : Type} (key : A -> datetime) (l : list A) :
  StronglySorted (descending key) l -> sorted_reverse key l = l.
Proof.
  induction 1 as [|a l Hl IH Ha]; [reflexivity|].
  cbn [sorted_reverse fold_right]. fold (sorted_reverse key l). rewrite IH.
  destruct l as [|y l]; [reflexivity|]. cbn [insert_reverse].
  inversion Ha as [|z zs Hy Hzs]; subst.
  rewrite (proj2 (dt_lt_false (key a) (key y)) Hy). reflexivity.
Qed.

(** X10.  Articles that come in descending order of sort key are written
    in the order they come in. *)
Theorem write_csv_sorted_input {rt : Runtime} (articles : list article)
    (filename : pystr) :
  StronglySorted (descending sort_key) articles ->
  rows (write_csv articles filename) = List.map row_of_article articles.
Proof.
  intros H. unfold write_csv. cbn [rows].
  rewrite (sorted_reverse_fixed sort_key articles H). reflexivity.
Qed.

Lemma write_csv_sorted_input_witness :
  rows (write_csv (rt := Reference.runtime world_empty)
          [article_redirect; article_year_one; article_undated] OUTPUT_FILE)
  = List.map (row_of_article (rt := Reference.runtime world_empty))
      [article_redirect; article_year_one; article_undated].
Proof.
  apply (write_csv_sorted_input (rt := Reference.runtime world_empty)).
  repeat constructor; vm_compute; discriminate.
Defined.

(** X11.  The exporter writes the file under the name it is given, with
    the five column names in their order and one row per article: the
    rows are those of the articles, rearranged.  The summary column is
    the article's summary cut after 500 characters: a prefix of the
    summary whose length is the smaller of 500 and the length of the
    summary, so a summary of at most 500 characters is written whole. *)
Theorem write_csv_rows {rt : Runtime} (articles : list article)
    (filename : pystr) :
  file_name (write_csv articles filename) = filename
  /\ header (write_csv articles filename)
     = List.map py ["title"; "url"; "publish_date"; "author"; "summary"]%string
  /\ Permutation (rows (write_csv articles filename))
       (List.map row_of_article articles)
  /\ length (rows (write_csv articles filename)) = length articles
  /\ Forall (fun r =>
               exists a,
                 In a articles
                 /\ row_title r = title a
                 /\ row_url r = url a
                 /\ row_author r = author a
                 /\ length (row_summary r)
                    = Nat.min 500 (length (summary a))
                 /\ (exists rest, summary a = row_summary r ++ rest)
                 /\ ((length (summary a) <= 500)%nat ->
                     row_summary r = summary a))
       (rows (write_csv articles filename)).
Proof.
  split; [reflexivity|]. split; [reflexivity|]. split; [|split].
  - unfold write_csv. cbn [rows].
    apply Permutation_map, sorted_reverse_perm.
  - unfold write_csv. cbn [rows]. rewrite List.length_map.
    apply Permutation_length, sorted_reverse_perm.
  - unfold write_csv. cbn [rows]. apply List.Forall_forall. intros r Hr.
    apply in_map_iff in Hr. destruct Hr as [a [<- Ha]].
    apply (Permutation_in _ (sorted_reverse_perm sort_key articles)) in Ha.
    exists a. split; [exact Ha|].
    repeat (split; [reflexivity|]). cbn [row_summary row_of_article].
    split; [apply List.length_firstn|]. split.
    + exists (skipn 500 (summary a)). symmetry. apply firstn_skipn.
    + intros Hlen. apply firstn_all2. exact Hlen.
Qed.

(** ** More on the feed query client *)

Lemma stored_title_trimmed (h : pystr) :
  str_strip (stored_title h) = stored_title h.
Proof. unfold stored_title. apply str_strip_idem. Qed.

Section Feed.

Context {rt : Runtime}.

Lemma article_of_entry_shaped (e : feed_entry) :
  url (article_of_entry e) = [] /\ feed_shaped (article_of_entry e).
Proof.
  split; [reflexivity|]. split; [reflexivity|]. split; [reflexivity|].
  apply stored_title_trimmed.
Qed.

Lemma fetch_gnews_rss_shaped (query : pystr) :
  Forall (fun a => url a = [] /\ feed_shaped a) (fetch_gnews_rss query).
Proof.
  unfold fetch_gnews_rss.
  destruct (requests_get (search_url query)) as [resp|]; [|constructor].
  destruct (negb (status_code resp =? 200)%Z); [constructor|].
  rewrite feed_articles_filter. apply List.Forall_forall. intros a Ha.
  apply in_map_iff in Ha. destruct Ha as [e [<- _]].
  apply article_of_entry_shaped.
Qed.

(** X12.  Every article the feed client returns has an empty url, an
    empty author and an empty summary, and a title without white space
    at either end. *)
Theorem fetch_gnews_rss_articles (query : pystr) :
  Forall (fun a =>
            url a = [] /\ author a = [] /\ summary a = []
            /\ str_strip (title a) = title a)
    (fetch_gnews_rss query).
Proof.
  eapply List.Forall_impl; [|apply fetch_gnews_rss_shaped].
  intros a [Hu [Ha [Hs Ht]]]. repeat split; assumption.
Qed.

Lemma search_url_space (query : pystr) : ~ In (ch " ") (search_url query).
Proof.
  unfold search_url. cbv zeta. rewrite !in_app_iff.
  intros [H|[H|[H|H]]].
  - vm_compute in H. repeat (destruct H as [H|H]; [discriminate H|]).
    exact H.
  - vm_compute in H. repeat (destruct H as [H|H]; [discriminate H|]).
    exact H.
  - unfold replace_char in H. apply in_map_iff in H.
    destruct H as [c [Hc _]].
    destruct (N.eqb_spec c (ch " ")) as [E|Hne]; [discriminate Hc|].
    congruence.
  - vm_compute in H. repeat (destruct H as [H|H]; [discriminate H|]).
    exact H.
Qed.

(** X13.  The address requested for a query is the fixed address of the
    search followed by the query, character by character, with a plus
    sign for each space and every other character as it is, and the
    fixed parameters; it has no space. *)
Theorem search_url_no_space (query : pystr) :
  exists encoded : pystr,
    search_url query
    = py "https://news.google.com/rss/search?q=" ++ encoded
      ++ py "&hl=en-US&gl=US&ceid=US:en"
    /\ Forall2 (fun c e => e = if c =? ch " " then ch "+" else c)
         query encoded
    /\ Forall (fun c => c <> ch " ") (search_url query).
Proof.
  exists (replace_char (ch " ") (ch "+") query). split; [|split].
  - unfold search_url. cbv zeta. rewrite app_assoc. reflexivity.
  - unfold replace_char. induction query as [|c query IH];
      constructor; [reflexivity | exact IH].
  - apply List.Forall_forall. intros c Hin E. subst c.
    apply (search_url_space query Hin).
Qed.

End Feed.

(** ** The whole run *)

Lemma firsts_app {A : Type} (key : A -> pystr) (seen : list pystr)
    (l1 l2 : list A) :
  exists seen',
    firsts key seen (l1 ++ l2)
    = firsts key seen l1 ++ firsts key seen' l2.
Proof.
  revert seen. induction l1 as [|a l1 IH]; intros seen.
  - exists seen. reflexivity.
  - cbn [app firsts]. destruct (bool_decide (key a ∈ seen)).
    + apply IH.
    + destruct (IH (key a :: seen)) as [seen' E]. exists seen'.
      rewrite E. reflexivity.
Qed.

Lemma Forall_sublist {A : Type} (P : A -> Prop) (l1 l2 : list A) :
  sublist l1 l2 -> Forall P l2 -> Forall P l1.
Proof.
  intros Hs Hf. apply List.Forall_forall. intros a Ha.
  apply (proj1 (List.Forall_forall _ _) Hf).
  apply list_elem_of_In. apply list_elem_of_In in Ha.
  exact (elem_of_sublist _ _ _ Ha Hs).
Qed.

Section Run.

Context {rt : Runtime}.

Lemma resolve_urls_map (articles : list article) :
  resolve_urls articles = Returned (List.map resolved_article articles).
Proof. apply resolve_urls_returns. Qed.

Lemma main_returns :
  main
  = Returned
      (write_csv
         (deduplicate_by_url
            (List.map resolved_article (filter_by_date collect_all_articles)))
         OUTPUT_FILE).
Proof. unfold main. cbv zeta. rewrite resolve_urls_map. reflexivity. Qed.

Lemma fetched_shaped (queries : list pystr) :
  Forall (fun a => url a = [] /\ feed_shaped a) (fetched queries).
Proof.
  induction queries as [|q queries IH]; [constructor|].
  unfold fetched. cbn [flat_map]. apply Forall_app. split;
    [apply fetch_gnews_rss_shaped | exact IH].
Qed.

(** The articles that reach the exporter, each with the article it was
    discovered as. *)
Lemma main_articles_origin :
  Forall (fun b =>
            exists a, In a (fetched RSS_QUERIES) /\ title_key a <> []
                      /\ recent a = true /\ b = resolved_article a)
    (deduplicate_by_url
       (List.map resolved_article (filter_by_date collect_all_articles))).
Proof.
  eapply Forall_sublist;
    [rewrite deduplicate_by_url_firsts; apply firsts_sublist|].
  apply List.Forall_forall. intros b Hb. apply in_map_iff in Hb.
  destruct Hb as [a [<- Ha]]. rewrite filter_by_date_filter in Ha.
  apply filter_In in Ha. destruct Ha as [Ha Hr].
  destruct (collect_articles_spec RSS_QUERIES) as [_ [Hk [Hs _]]].
  fold collect_all_articles in Hk, Hs.
  exists a. split; [|split; [|split; [exact Hr | reflexivity]]].
  - apply list_elem_of_In. apply list_elem_of_In in Ha.
    exact (elem_of_sublist _ _ _ Ha Hs).
  - apply (proj1 (List.Forall_forall _ _) Hk a Ha).
Qed.

(** X14.  When no request succeeds (each raises or comes back with a
    status other than 200) nothing is discovered, and the run still
    writes the file: the header and no row. *)
Theorem main_without_network :
  (forall address,
     match requests_get address with
     | Raised => True
     | Returned resp => status_code resp <> 200%Z
     end) ->
  collect_all_articles = []
  /\ main
     = Returned
         {| file_name := OUTPUT_FILE; header := fieldnames; rows := [] |}.
Proof.
  intros H.
  assert (Hf : forall query, fetch_gnews_rss query = []).
  { intros query. unfold fetch_gnews_rss.
    specialize (H (search_url query)).
    destruct (requests_get (search_url query)) as [resp|]; [|reflexivity].
    apply Z.eqb_neq in H. rewrite H. reflexivity. }
  assert (Hq : forall queries, fetched queries = []).
  { induction queries as [|q queries IH]; [reflexivity|].
    unfold fetched in *. cbn [flat_map]. rewrite Hf, IH. reflexivity. }
  assert (Hc : collect_all_articles = []).
  { unfold collect_all_articles. rewrite collect_articles_firsts, Hq.
    reflexivity. }
  split; [exact Hc|]. rewrite main_returns, Hc. reflexivity.
Qed.

(** X15.  Whatever the network, the feeds and the decoder do, the file
    the run hands to the writer has the name of the output file and the
    five column names, and no two of its rows have urls with the same
    normalized form.  (Failures of the file system while the file is
    written are not part of the model.) *)
Theorem main_writes_distinct_urls :
  exists file : csv_file,
    main = Returned file
    /\ file_name file = OUTPUT_FILE
    /\ header file = fieldnames
    /\ NoDup (List.map (fun r => normalize_url (row_url r)) (rows file)).
Proof.
  eexists. split; [apply main_returns|].
  split; [reflexivity|]. split; [reflexivity|].
  unfold write_csv. cbn [rows]. rewrite List.map_map.
  change (fun x => normalize_url (row_url (row_of_article x))) with url_key.
  rewrite (Permutation_map url_key (sorted_reverse_perm sort_key _)).
  rewrite deduplicate_by_url_firsts. apply firsts_NoDup.
Qed.

(** X16.  Every row the run writes has an empty author and an empty
    summary, and a title without white space at either end. *)
Theorem main_rows_shape :
  exists file : csv_file,
    main = Returned file
    /\ Forall (fun r =>
                 row_author r = [] /\ row_summary r = []
                 /\ str_strip (row_title r) = row_title r)
         (rows file).
Proof.
  eexists. split; [apply main_returns|].
  unfold write_csv. cbn [rows]. apply List.Forall_forall. intros r Hr.
  apply in_map_iff in Hr. destruct Hr as [b [<- Hb]].
  apply (Permutation_in _ (sorted_reverse_perm sort_key _)) in Hb.
  pose proof (proj1 (List.Forall_forall _ _) main_articles_origin b Hb)
    as [a [Ha [_ [_ ->]]]].
  pose proof (proj1 (List.Forall_forall _ _) (fetched_shaped RSS_QUERIES)
                a Ha) as [_ [Hau [Hsu Hti]]].
  cbn [row_author row_summary row_title row_of_article resolved_article
       set_url author summary title].
  rewrite Hau, Hsu, Hti. repeat split; reflexivity.
Qed.

(** X17.  Nothing is exported that was not discovered or that is dated
    before the cutoff: every row is the row of an article that a query
    returned, with a non-empty title key and a date that is unknown or
    not before the cutoff, after resolution of its url. *)
Theorem main_rows_origin :
  exists file : csv_file,
    main = Returned file
    /\ Forall (fun r =>
                 exists a,
                   In a (fetched RSS_QUERIES)
                   /\ title_key a <> []
                   /\ (parse_date (publish_date a) = None
                       \/ exists dt, parse_date (publish_date a) = Some dt
                                     /\ dt_le CUTOFF_DATE dt)
                   /\ r = row_of_article (resolved_article a))
         (rows file).
Proof.
  eexists. split; [apply main_returns|].
  unfold write_csv. cbn [rows]. apply List.Forall_forall. intros r Hr.
  apply in_map_iff in Hr. destruct Hr as [b [<- Hb]].
  apply (Permutation_in _ (sorted_reverse_perm sort_key _)) in Hb.
  pose proof (proj1 (List.Forall_forall _ _) main_articles_origin b Hb)
    as [a [Ha [Hk [Hr ->]]]].
  exists a. split; [exact Ha|]. split; [exact Hk|].
  split; [apply recent_spec, Hr | reflexivity].
Qed.

(** X18.  Queries added at the end never displace what the earlier ones
    found: the articles collected for a list of queries followed by more
    queries are the articles collected for the list, in the same order,
    followed by articles that the added queries returned. *)
Theorem collect_articles_extends (queries more : list pystr) :
  exists added : list article,
    collect_articles (queries ++ more) = collect_articles queries ++ added
    /\ sublist added (fetched more).
Proof.
  rewrite !collect_articles_firsts. unfold fetched.
  rewrite flat_map_app, List.filter_app.
  destruct (firsts_app title_key []
              (List.filter keyed (flat_map fetch_gnews_rss queries))
              (List.filter keyed (flat_map fetch_gnews_rss more)))
    as [seen' E].
  exists (firsts title_key seen'
            (List.filter keyed (flat_map fetch_gnews_rss more))).
  split; [exact E|].
  transitivity (List.filter keyed (flat_map fetch_gnews_rss more));
    [apply firsts_sublist | apply filter_sublist].
Qed.

End Run.

Lemma main_without_network_witness :
  collect_all_articles (rt := Reference.runtime world_empty) = []
  /\ main (rt := Reference.runtime world_empty)
     = Returned
         {| file_name := OUTPUT_FILE; header := fieldnames; rows := [] |}.
Proof.
  apply (main_without_network (rt := Reference.runtime world_empty)).
  intros address. exact I.
Defined.

Section Phases.

Context {rt : Runtime}.

Lemma recent_resolved_article (a : article) :
  recent (resolved_article a) = recent a.
Proof. reflexivity. Qed.

Lemma filter_map_commute {A B : Type} (f : A -> B) (p : B -> bool)
    (q : A -> bool) (l : list A) :
  (forall a, p (f a) = q a) ->
  List.filter p (List.map f l) = List.map f (List.filter q l).
Proof.
  intros H. induction l as [|a l IH]; [reflexivity|].
  cbn [List.map List.filter]. rewrite H, IH.
  destruct (q a); reflexivity.
Qed.

(** X19.  The date filter and the resolution of urls can be run in either
    order: resolving the filtered articles gives the same list as
    filtering the resolved articles, since resolution leaves the date
    string of an article as it is. *)
Theorem filter_by_date_resolve_urls (articles : list article) :
  exists out resolved : list article,
    resolve_urls (filter_by_date articles) = Returned out
    /\ resolve_urls articles = Returned resolved
    /\ filter_by_date resolved = out
    /\ List.map publish_date resolved = List.map publish_date articles.
Proof.
  exists (List.map resolved_article (filter_by_date articles)),
    (List.map resolved_article articles).
  split; [apply resolve_urls_map|]. split; [apply resolve_urls_map|].
  split.
  - rewrite !filter_by_date_filter.
    apply filter_map_commute, recent_resolved_article.
  - rewrite List.map_map. reflexivity.
Qed.

End Phases.
